(** * tor_correlation.py: the traffic correlator and the relay partition

    A shallow embedding of [src/tor_correlation.py]: [extract_nodes]
    (lines 22-41), [TrafficFlow] and [create_sample_traffic] (lines 45-68)
    and [find_correlations] (lines 72-96).  The network request of
    [fetch_tor_data], the plotting functions and the printing of [main] are
    not modelled.

    Python numbers.  Byte counts are Python [int]s, modelled as [Z].
    Timestamps, the time window, the delay and the scores are Python
    [float]s.  The operations the correlator performs on them are collected
    in the class [PyFloat].  Its reference instance [binary64] is IEEE 754
    binary64 as provided by the primitive floats, which is what CPython's
    [float] is; every theorem below is instantiated there.  The instance
    [exact] is arithmetic on rationals without rounding, the reading in
    which the formulas of the specification are exact.

    Python exceptions are modelled by the error monad [result].

    Layout: the embedding and the definitions the statements use come
    first; then the lemmas about the loops, the proof that binary64
    arithmetic rounds monotonically (modules [Round53Facts] and
    [Binary64Facts]); then one theorem per claim, and further properties
    of the code. *)

From Stdlib Require Import ZArith List Bool String Lia.
From Stdlib Require Import Floats.
From Stdlib Require Import QArith Lqa Qround Qpower Qabs.
Import ListNotations.

Set Warnings "-inexact-float".

(** ** Exceptions *)

Inductive exn : Type :=
| ZeroDivisionError
| KeyError.

Inductive result (A : Type) : Type :=
| Ok (a : A)
| Raise (e : exn).

Arguments Ok {A} a.
Arguments Raise {A} e.

Definition bind {A B : Type} (r : result A) (k : A -> result B) : result B :=
  match r with
  | Ok a => k a
  | Raise e => Raise e
  end.

Notation "x <- r ;; k" := (bind r (fun x => k))
  (at level 61, r at next level, right associativity).

(** ** The arithmetic of Python floats used by the correlator *)

Class PyFloat (F : Type) : Type := {
  (** the conversion of an int operand in a mixed int/float operation; the
      correlator converts the literals [0], [1] and [50] *)
  of_int : Z -> F;
  fadd : F -> F -> F;
  fsub : F -> F -> F;
  fmul : F -> F -> F;
  (** float division where the divisor is not zero *)
  fdiv : F -> F -> F;
  (** the float quotient of two ints where the divisor is not zero *)
  int_div : Z -> Z -> F;
  feqb : F -> F -> bool;
  fltb : F -> F -> bool;
  fleb : F -> F -> bool
}.

Abbreviation fzero := (of_int 0).
Abbreviation fone := (of_int 1).
Abbreviation ffifty := (of_int 50).

(** [a / b] on two floats: float_div raises when the divisor compares equal
    to zero. *)
Definition float_truediv {F} `{PyFloat F} (a b : F) : result F :=
  if feqb b fzero then Raise ZeroDivisionError else Ok (fdiv a b).

(** [a / b] on two ints: long_true_divide raises on a zero divisor. *)
Definition int_truediv {F} `{PyFloat F} (a b : Z) : result F :=
  if (b =? 0)%Z then Raise ZeroDivisionError else Ok (int_div a b).

(** *** IEEE 754 binary64 *)

Module Binary64.

(** An int as an (unnormalised) binary float with exponent 0. *)
Definition Z2SF (z : Z) : spec_float :=
  match z with
  | Z0 => S754_zero false
  | Zpos p => S754_finite false p 0
  | Zneg p => S754_finite true p 0
  end.

(** int / int is the exact quotient rounded once to binary64. *)
Definition int_div (a b : Z) : float :=
  SF2Prim (SF64div (Z2SF a) (Z2SF b)).

(** An int rounded to binary64. *)
Definition of_int (z : Z) : float :=
  SF2Prim (binary_normalize prec emax z 0 false).

End Binary64.

#[export] Instance binary64 : PyFloat float := {
  of_int := Binary64.of_int;
  fadd := PrimFloat.add;
  fsub := PrimFloat.sub;
  fmul := PrimFloat.mul;
  fdiv := PrimFloat.div;
  int_div := Binary64.int_div;
  feqb := PrimFloat.eqb;
  fltb := PrimFloat.ltb;
  fleb := PrimFloat.leb
}.

(** *** Exact arithmetic on rationals *)

Module Exact.

Definition ltb (a b : Q) : bool := negb (Qle_bool b a).

End Exact.

#[export] Instance exact : PyFloat Q := {
  of_int := inject_Z;
  fadd := Qplus;
  fsub := Qminus;
  fmul := Qmult;
  fdiv := Qdiv;
  int_div := fun a b => inject_Z a / inject_Z b;
  feqb := Qeq_bool;
  fltb := Exact.ltb;
  fleb := Qle_bool
}.

(** ** PART 1: the relay partition ([extract_nodes], lines 22-41) *)

Module Relays.

Local Open Scope string_scope.

(** A relay record of the Onionoo document: a dict whose keys 'flags',
    'nickname', 'fingerprint' and 'addresses' may each be absent. *)
Record Relay : Type := mkRelay {
  flags : option (list string);
  nickname : option string;
  fingerprint : option string;
  addresses : option (list string)
}.

(** The document: a dict that may lack the key 'relays'. *)
Record TorData : Type := mkTorData {
  relays : option (list Relay)
}.

(** node_info: keys 'nickname' and 'addresses'. *)
Record NodeInfo : Type := mkNodeInfo {
  info_nickname : string;
  info_addresses : list string
}.

(** [d.get(key, default)] *)
Definition dict_get {A : Type} (v : option A) (default : A) : A :=
  match v with
  | Some a => a
  | None => default
  end.

(** ['Exit' in flags] *)
Definition exit_in (flags : list string) : bool :=
  existsb (String.eqb "Exit") flags.

Definition node_info_of (relay : Relay) : NodeInfo :=
  let nickname :=
    dict_get (nickname relay)
             (substring 0 16 (dict_get (fingerprint relay) "unknown")) in
  {| info_nickname := nickname;
     info_addresses := dict_get (addresses relay) [] |}.

(** [for relay in tor_data['relays']: ...], threading the two lists. *)
Fixpoint for_relays (relays : list Relay) (entry_nodes exit_nodes : list NodeInfo)
    : list NodeInfo * list NodeInfo :=
  match relays with
  | [] => (entry_nodes, exit_nodes)
  | relay :: rest =>
      let flags := dict_get (flags relay) [] in
      let node_info := node_info_of relay in
      if exit_in flags
      then for_relays rest entry_nodes (exit_nodes ++ [node_info])
      else for_relays rest (entry_nodes ++ [node_info]) exit_nodes
  end.

Definition extract_nodes (tor_data : TorData)
    : result (list NodeInfo * list NodeInfo) :=
  match relays tor_data with
  | None => Raise KeyError
  | Some rs => Ok (for_relays rs [] [])
  end.

(** A relay with an 'Exit' flag. *)
Definition has_exit_flag (relay : Relay) : bool :=
  exit_in (dict_get (flags relay) []).

End Relays.

(** ** PART 3: traffic samples *)

Section Correlator.

Context {F : Type} `{PyFloat F}.

(** class TrafficFlow *)
Record TrafficFlow : Type := mkTrafficFlow {
  node_id : string;
  node_name : string;
  timestamp : F;
  bytes : Z
}.

(** The dict appended to [matches]: keys 'entry_node', 'exit_node',
    'confidence', 'delay' and 'bytes'. *)
Record Match : Type := mkMatch {
  entry_node : string;
  exit_node : string;
  confidence : F;
  delay : F;
  match_bytes : Z
}.

(** The body of the inner loop (lines 78-94) for one [entry] and one
    [exit], threading the list [matches]. *)
Definition correlate (time_window : F) (entry exit : TrafficFlow)
    (matches : list Match) : result (list Match) :=
  let byte_diff := Z.abs (bytes entry - bytes exit) in
  if (byte_diff <? 100)%Z then
    let delay := fsub (timestamp exit) (timestamp entry) in
    if fltb fzero delay && fltb delay time_window then
      r <- int_truediv byte_diff (Z.max (bytes entry) (bytes exit)) ;;
      let byte_score := fmul (fsub fone r) ffifty in
      q <- float_truediv delay time_window ;;
      let timing_score := fmul (fsub fone q) ffifty in
      let confidence := fadd byte_score timing_score in
      Ok (matches ++ [ {| entry_node := node_name entry;
                          exit_node := node_name exit;
                          confidence := confidence;
                          delay := delay;
                          match_bytes := bytes entry |} ])
    else Ok matches
  else Ok matches.

(** [for exit in exit_flows: ...] *)
Fixpoint for_exits (time_window : F) (entry : TrafficFlow)
    (exit_flows : list TrafficFlow) (matches : list Match)
    : result (list Match) :=
  match exit_flows with
  | [] => Ok matches
  | exit :: rest =>
      matches' <- correlate time_window entry exit matches ;;
      for_exits time_window entry rest matches'
  end.

(** [for entry in entry_flows: ...] *)
Fixpoint for_entries (time_window : F) (entry_flows exit_flows : list TrafficFlow)
    (matches : list Match) : result (list Match) :=
  match entry_flows with
  | [] => Ok matches
  | entry :: rest =>
      matches' <- for_exits time_window entry exit_flows matches ;;
      for_entries time_window rest exit_flows matches'
  end.

Definition find_correlations (entry_flows exit_flows : list TrafficFlow)
    (time_window : F) : result (list Match) :=
  for_entries time_window entry_flows exit_flows [].

End Correlator.

Arguments TrafficFlow F : clear implicits.
Arguments Match F : clear implicits.

(** [create_sample_traffic] (lines 52-68) and the default [time_window=5]. *)
Module Sample.

Local Open Scope float_scope.
Local Open Scope string_scope.

Definition entry_traffic : list (TrafficFlow float) :=
  [ mkTrafficFlow "e1" "relay_guard_1" 100.0 1000;
    mkTrafficFlow "e1" "relay_guard_1" 101.0 500;
    mkTrafficFlow "e1" "relay_guard_1" 102.0 1500;
    mkTrafficFlow "e1" "relay_guard_1" 103.0 2000 ].

Definition exit_traffic : list (TrafficFlow float) :=
  [ mkTrafficFlow "x1" "relay_exit_7" 103.2 1000;
    mkTrafficFlow "x1" "relay_exit_7" 104.2 500;
    mkTrafficFlow "x1" "relay_exit_7" 105.2 1500;
    mkTrafficFlow "x1" "relay_exit_7" 106.2 2000 ].

Definition create_sample_traffic := (entry_traffic, exit_traffic).

Definition default_time_window : float := 5.

End Sample.

(** ** The matching predicate and the scan over the cross product

    These definitions restate what the specification says the correlator
    computes; the theorems below compare them with [find_correlations]. *)

Section Scan.

Context {F : Type} `{PyFloat F}.

Definition byte_diff (e x : TrafficFlow F) : Z := Z.abs (bytes e - bytes x).

Definition max_bytes (e x : TrafficFlow F) : Z := Z.max (bytes e) (bytes x).

Definition delay_of (e x : TrafficFlow F) : F := fsub (timestamp x) (timestamp e).

(** byte_diff < 100 and 0 < delay < W *)
Definition qualifies (W : F) (e x : TrafficFlow F) : bool :=
  (byte_diff e x <? 100)%Z
  && (fltb fzero (delay_of e x) && fltb (delay_of e x) W).

Definition byte_score_of (e x : TrafficFlow F) : F :=
  fmul (fsub fone (int_div (byte_diff e x) (max_bytes e x))) ffifty.

Definition timing_score_of (W : F) (e x : TrafficFlow F) : F :=
  fmul (fsub fone (fdiv (delay_of e x) W)) ffifty.

Definition score (W : F) (e x : TrafficFlow F) : F :=
  fadd (byte_score_of e x) (timing_score_of W e x).

(** The candidate link of a pair whose divisions are defined. *)
Definition link (W : F) (e x : TrafficFlow F) : Match F :=
  {| entry_node := node_name e;
     exit_node := node_name x;
     confidence := score W e x;
     delay := delay_of e x;
     match_bytes := bytes e |}.

(** Scoring one pair, with the two divisions as Python performs them. *)
Definition candidate (W : F) (p : TrafficFlow F * TrafficFlow F)
    : result (Match F) :=
  let (e, x) := p in
  r <- int_truediv (byte_diff e x) (max_bytes e x) ;;
  q <- float_truediv (delay_of e x) W ;;
  Ok {| entry_node := node_name e;
        exit_node := node_name x;
        confidence := fadd (fmul (fsub fone r) ffifty) (fmul (fsub fone q) ffifty);
        delay := delay_of e x;
        match_bytes := bytes e |}.

Fixpoint collect (W : F) (ps : list (TrafficFlow F * TrafficFlow F))
    : result (list (Match F)) :=
  match ps with
  | [] => Ok []
  | p :: rest =>
      m <- candidate W p ;;
      ms <- collect W rest ;;
      Ok (m :: ms)
  end.

(** The pairs of the cross product, entries outer and exits inner, that
    pass the matching predicate. *)
Definition qualifying_pairs (W : F) (es xs : list (TrafficFlow F))
    : list (TrafficFlow F * TrafficFlow F) :=
  filter (fun p => qualifies W (fst p) (snd p)) (list_prod es xs).

Definition cross_product_scan (es xs : list (TrafficFlow F)) (W : F)
    : result (list (Match F)) :=
  collect W (qualifying_pairs W es xs).

End Scan.

(** ** Order laws of the comparisons

    Two facts about [<], [<=] and [==] on floats that the correlator relies
    on.  They hold of IEEE 754 comparisons, NaN included. *)

Class PyFloatOrder (F : Type) `{PyFloat F} : Prop := {
  (** a window above a positive delay is not zero *)
  flt_window_nonzero : forall d w : F,
    fltb fzero d = true -> fltb d w = true -> feqb w fzero = false;
  (** [a <= b] excludes [b < a] *)
  fle_not_flt : forall a b : F, fleb a b = true -> fltb b a = false
}.

(** ** Laws of rounded arithmetic

    What the bounds and the monotonicity of the confidence need from the
    arithmetic: the comparisons form an order, every operation rounds
    monotonically, the constants are exact, and a quotient of a positive
    number by a larger one stays below one.  Binary64 arithmetic, which
    rounds each exact result to a nearest representable number, has these
    properties ([binary64_rounding] below), and so has arithmetic that does
    not round. *)

Class PyFloatRounding (F : Type) `{PyFloat F} : Prop := {
  fle_trans : forall a b c : F,
    fleb a b = true -> fleb b c = true -> fleb a c = true;
  fle_refl_l : forall a b : F, fleb a b = true -> fleb a a = true;
  fle_refl_r : forall a b : F, fleb a b = true -> fleb b b = true;
  flt_fle : forall a b : F, fltb a b = true -> fleb a b = true;
  (** the constants *)
  fle_zero_one : fleb fzero fone = true;
  fle_zero_fifty : fleb fzero ffifty = true;
  fsub_one_zero : fleb (fsub fone fzero) fone = true;
  fsub_one_one : fleb fzero (fsub fone fone) = true;
  fmul_one_fifty : fleb (fmul fone ffifty) ffifty = true;
  fmul_zero_fifty : fleb fzero (fmul fzero ffifty) = true;
  fadd_fifty_fifty : fleb (fadd ffifty ffifty) (of_int 100) = true;
  (** monotone rounding, on the ranges the scores live in *)
  fsub_one_antitone : forall a b : F,
    fleb fzero a = true -> fleb a b = true -> fleb b fone = true ->
    fleb (fsub fone b) (fsub fone a) = true;
  fmul_fifty_monotone : forall a b : F,
    fleb fzero a = true -> fleb a b = true -> fleb b fone = true ->
    fleb (fmul a ffifty) (fmul b ffifty) = true;
  fadd_monotone_l : forall a b c : F,
    fleb fzero a = true -> fleb a b = true -> fleb b ffifty = true ->
    fleb fzero c = true -> fleb c ffifty = true ->
    fleb (fadd a c) (fadd b c) = true;
  fadd_monotone_r : forall a c d : F,
    fleb fzero a = true -> fleb a ffifty = true ->
    fleb fzero c = true -> fleb c d = true -> fleb d ffifty = true ->
    fleb (fadd a c) (fadd a d) = true;
  int_div_monotone : forall a b m : Z,
    (0 <= a <= b)%Z -> (b <= m)%Z -> (0 < m)%Z ->
    fleb (int_div a m) (int_div b m) = true;
  fdiv_monotone : forall a b w : F,
    fltb fzero a = true -> fleb a b = true -> fltb b w = true ->
    fleb (fdiv a w) (fdiv b w) = true;
  (** bounds of the quotients *)
  int_div_nonneg : forall a m : Z,
    (0 <= a <= m)%Z -> (0 < m)%Z -> fleb fzero (int_div a m) = true;
  int_div_le_one : forall a m : Z,
    (0 <= a <= m)%Z -> (0 < m)%Z -> fleb (int_div a m) fone = true;
  fdiv_nonneg : forall d w : F,
    fltb fzero d = true -> fltb d w = true -> fleb fzero (fdiv d w) = true;
  fdiv_lt_one : forall d w : F,
    fltb fzero d = true -> fltb d w = true -> fltb (fdiv d w) fone = true;
  (** a positive number does not round to zero *)
  fsub_one_pos : forall q : F,
    fleb fzero q = true -> fltb q fone = true ->
    fltb fzero (fsub fone q) = true;
  fmul_fifty_pos : forall p : F,
    fltb fzero p = true -> fleb p fone = true ->
    fltb fzero (fmul p ffifty) = true;
  fadd_pos : forall a b : F,
    fleb fzero a = true -> fleb a ffifty = true ->
    fltb fzero b = true -> fleb b ffifty = true ->
    fltb fzero (fadd a b) = true
}.

(** ** Round to nearest, ties to even, on rationals

    The rounding of IEEE 754 binary64 described on exact values: [rnd q] is
    the multiple of [2 ^ fexp q] nearest to [q], where the exponent
    [fexp q] leaves 53 significant bits and is bounded below by the
    exponent of the subnormal numbers. *)

Module Round53.

Local Open Scope Q_scope.

(** 2^e *)
Definition two (e : Z) : Q := Qpower 2 e.

(** Round to the nearest integer, ties to even. *)
Definition rne (x : Q) : Z :=
  let f := Qfloor x in
  match Qcompare (x - inject_Z f) (1 # 2) with
  | Lt => f
  | Eq => if Z.even f then f else (f + 1)%Z
  | Gt => (f + 1)%Z
  end.

(** floor (log2 q) for q > 0 *)
Definition ilog2 (q : Q) : Z :=
  let k := (Z.log2 (Qnum q) - Z.log2 (Zpos (Qden q)))%Z in
  if Qle_bool (two k) q then k else (k - 1)%Z.

(** The exponent of the last place: 53 bits, least exponent -1074. *)
Definition emin : Z := -1074.

Definition fexp (q : Q) : Z := Z.max (ilog2 q - 52) emin.

(** Rounding of a positive rational. *)
Definition rnd_pos (q : Q) : Q :=
  inject_Z (rne (q * two (- fexp q))) * two (fexp q).

(** Rounding to nearest, ties to even, of any rational. *)
Definition rnd (q : Q) : Q :=
  match Qcompare q 0 with
  | Eq => 0
  | Gt => rnd_pos q
  | Lt => - rnd_pos (- q)
  end.

End Round53.

(** ** The value of a binary64 number *)

Module Binary64Value.

Import Stdlib.Floats.Floats.
Import Round53.
Local Open Scope Q_scope.

(** A shift record [(m, r, s)] locates a real [X]: [m] is its integer part,
    the round bit [r] and the sticky bit [s] place its fractional part
    against one half. *)
Definition located (X : Q) (mrs : shr_record) : Prop :=
  match shr_r mrs, shr_s mrs with
  | false, false => X == inject_Z (shr_m mrs)
  | false, true => inject_Z (shr_m mrs) < X /\ X < inject_Z (shr_m mrs) + (1 # 2)
  | true, false => X == inject_Z (shr_m mrs) + (1 # 2)
  | true, true => inject_Z (shr_m mrs) + (1 # 2) < X /\ X < inject_Z (shr_m mrs) + 1
  end.

(** The exponent function of the binary64 specification. *)
Definition fexpS (z : Z) : Z := SpecFloat.fexp prec emax z.

(** The value of a finite binary64 number; zero for the others. *)
Definition SFval (x : spec_float) : Q :=
  match x with
  | S754_finite s m e =>
      (if s then - inject_Z (Zpos m) else inject_Z (Zpos m)) * two e
  | _ => 0
  end.

Definition nonneg_finite (x : spec_float) : Prop :=
  match x with
  | S754_zero _ => True
  | S754_finite false _ _ => True
  | _ => False
  end.

(** Zero or a valid positive number. *)
Definition nonneg_valid (x : spec_float) : Prop :=
  valid_binary x = true /\ nonneg_finite x.

(** A rank that orders all numbers as [SFcompare] does: the sign class,
    then exponent and significand. *)
Definition lex_le (e1 : Z) (m1 : positive) (e2 : Z) (m2 : positive) : Prop :=
  (e1 < e2)%Z \/ (e1 = e2 /\ (m1 <= m2)%positive).

Definition FV (f : float) : Q := SFval (Prim2SF f).

Definition NV (f : float) : Prop := nonneg_valid (Prim2SF f).

End Binary64Value.

(** ** Samples used to instantiate the theorems *)

(** Two samples of zero bytes, 3.2 seconds apart. *)
Module SampleZero.

Local Open Scope float_scope.
Local Open Scope string_scope.

Definition idle_entry : TrafficFlow float := mkTrafficFlow "e1" "relay_guard_1" 100.0 0.
Definition idle_exit : TrafficFlow float := mkTrafficFlow "x1" "relay_exit_7" 103.2 0.

End SampleZero.

Module SampleRun.

Local Open Scope float_scope.
Local Open Scope string_scope.

(** What [find_correlations(entry_traffic, exit_traffic)] returns. *)
Definition sample_matches : list (Match float) :=
  [ mkMatch "relay_guard_1" "relay_exit_7" 67.999999999999972 3.2000000000000028 1000;
    mkMatch "relay_guard_1" "relay_exit_7" 67.999999999999972 3.2000000000000028 500;
    mkMatch "relay_guard_1" "relay_exit_7" 67.999999999999972 3.2000000000000028 1500;
    mkMatch "relay_guard_1" "relay_exit_7" 67.999999999999972 3.2000000000000028 2000 ].

Definition first_entry : TrafficFlow float := mkTrafficFlow "e1" "relay_guard_1" 100.0 1000.
Definition first_exit : TrafficFlow float := mkTrafficFlow "x1" "relay_exit_7" 103.2 1000.
Definition second_exit : TrafficFlow float := mkTrafficFlow "x1" "relay_exit_7" 104.2 500.

(** An exit sample 99 bytes above the first entry sample. *)
Definition near_exit : TrafficFlow float := mkTrafficFlow "x1" "relay_exit_7" 103.2 1099.

(** An exit sample 99 bytes below the first entry sample. *)
Definition low_exit : TrafficFlow float := mkTrafficFlow "x1" "relay_exit_7" 103.2 901.

(** The first exit sample one second later. *)
Definition late_exit : TrafficFlow float := mkTrafficFlow "x1" "relay_exit_7" 104.2 1000.

End SampleRun.

(** Two pairs with byte_diff 50: maximum 50 and delay 1, maximum 1000 and
    delay 2. *)
Module SampleMax.

Local Open Scope float_scope.
Local Open Scope string_scope.

Definition small_entry : TrafficFlow float := mkTrafficFlow "e1" "relay_guard_1" 100.0 50.
Definition small_exit : TrafficFlow float := mkTrafficFlow "x1" "relay_exit_7" 101.0 0.
Definition large_entry : TrafficFlow float := mkTrafficFlow "e1" "relay_guard_1" 100.0 1000.
Definition large_exit : TrafficFlow float := mkTrafficFlow "x1" "relay_exit_7" 102.0 950.

End SampleMax.

(** The sample traffic with exact timestamps. *)
Module ExactSample.

Local Open Scope string_scope.
Local Open Scope Q_scope.

Definition entry_traffic : list (TrafficFlow Q) :=
  [ mkTrafficFlow "e1" "relay_guard_1" 100 1000;
    mkTrafficFlow "e1" "relay_guard_1" 101 500;
    mkTrafficFlow "e1" "relay_guard_1" 102 1500;
    mkTrafficFlow "e1" "relay_guard_1" 103 2000 ].

Definition exit_traffic : list (TrafficFlow Q) :=
  [ mkTrafficFlow "x1" "relay_exit_7" 103.2 1000;
    mkTrafficFlow "x1" "relay_exit_7" 104.2 500;
    mkTrafficFlow "x1" "relay_exit_7" 105.2 1500;
    mkTrafficFlow "x1" "relay_exit_7" 106.2 2000 ].

(** What the run on the exact sample returns. *)
Definition sample_matches : list (Match Q) :=
  Eval vm_compute in
    match find_correlations entry_traffic exit_traffic 5 with
    | Ok ms => ms
    | Raise _ => []
    end.

End ExactSample.

(** * Lemmas *)

(** ** The loops against the scan *)

Section CorrelatorFacts.

Context {F : Type} `{PyFloat F}.

Lemma bind_Ok_r {A} (r : result A) : (a <- r ;; Ok a) = r.
Proof. destruct r; reflexivity. Qed.

Lemma bind_assoc {A B C} (r : result A) (f : A -> result B) (g : B -> result C) :
  (b <- (a <- r ;; f a) ;; g b) = (a <- r ;; b <- f a ;; g b).
Proof. destruct r; reflexivity. Qed.

Lemma correlate_candidate W e x ms :
  correlate W e x ms =
  if qualifies W e x
  then m <- candidate W (e, x) ;; Ok (ms ++ [m])
  else Ok ms.
Proof.
  unfold correlate, qualifies, candidate.
  fold (byte_diff e x) (max_bytes e x) (delay_of e x).
  destruct (byte_diff e x <? 100)%Z; simpl; [|reflexivity].
  destruct (fltb fzero (delay_of e x) && fltb (delay_of e x) W); [|reflexivity].
  destruct (int_truediv (byte_diff e x) (max_bytes e x)); simpl; [|reflexivity].
  destruct (float_truediv (delay_of e x) W); reflexivity.
Qed.

Lemma collect_app W ps qs :
  collect W (ps ++ qs) =
  (ms <- collect W ps ;; ns <- collect W qs ;; Ok (ms ++ ns)).
Proof.
  induction ps as [|p ps IH]; simpl.
  - now rewrite bind_Ok_r.
  - destruct (candidate W p); simpl; [|reflexivity].
    rewrite IH. destruct (collect W ps); simpl; [|reflexivity].
    destruct (collect W qs); reflexivity.
Qed.

Lemma for_exits_collect W e xs : forall ms,
  for_exits W e xs ms =
  (ns <- collect W (filter (fun p => qualifies W (fst p) (snd p))
                           (map (fun x => (e, x)) xs)) ;;
   Ok (ms ++ ns)).
Proof.
  induction xs as [|x xs IH]; intros ms; cbn [for_exits map filter fst snd].
  - cbn. now rewrite app_nil_r.
  - rewrite correlate_candidate.
    destruct (qualifies W e x); cbn [collect bind].
    + destruct (candidate W (e, x)) as [m|]; cbn [bind]; [|reflexivity].
      rewrite IH.
      destruct (collect W _); cbn [bind]; [|reflexivity].
      now rewrite <- app_assoc.
    + apply IH.
Qed.

Lemma for_entries_collect W es xs : forall ms,
  for_entries W es xs ms =
  (ns <- collect W (qualifying_pairs W es xs) ;; Ok (ms ++ ns)).
Proof.
  unfold qualifying_pairs.
  induction es as [|e es IH]; intros ms; simpl.
  - now rewrite app_nil_r.
  - rewrite for_exits_collect, filter_app, collect_app.
    destruct (collect W (filter _ (map _ xs))) as [ns|]; simpl; [|reflexivity].
    rewrite IH.
    destruct (collect W _); simpl; [|reflexivity].
    now rewrite <- app_assoc.
Qed.

Lemma find_correlations_collect es xs W :
  find_correlations es xs W = collect W (qualifying_pairs W es xs).
Proof.
  unfold find_correlations. rewrite for_entries_collect.
  destruct (collect W _); reflexivity.
Qed.

Lemma qualifying_pairs_app W es es' xs :
  qualifying_pairs W (es ++ es') xs =
  qualifying_pairs W es xs ++ qualifying_pairs W es' xs.
Proof.
  unfold qualifying_pairs.
  induction es as [|e es IH]; simpl; [reflexivity|].
  now rewrite !filter_app, IH, app_assoc.
Qed.

Lemma qualifying_pairs_single_app W e xs xs' :
  qualifying_pairs W [e] (xs ++ xs') =
  qualifying_pairs W [e] xs ++ qualifying_pairs W [e] xs'.
Proof.
  unfold qualifying_pairs. simpl.
  now rewrite !app_nil_r, map_app, filter_app.
Qed.

(** ** Which pairs raise *)

Lemma candidate_exn W p ex :
  candidate W p = Raise ex -> ex = ZeroDivisionError.
Proof.
  destruct p as [e x]. unfold candidate, int_truediv, float_truediv.
  destruct (max_bytes e x =? 0)%Z; cbn [bind]; [congruence|].
  destruct (feqb W fzero); cbn [bind]; congruence.
Qed.

Lemma collect_exn W ps ex :
  collect W ps = Raise ex -> ex = ZeroDivisionError.
Proof.
  induction ps as [|p ps IH]; cbn [collect]; [discriminate|].
  destruct (candidate W p) eqn:Ep; cbn [bind].
  - destruct (collect W ps); cbn [bind]; [discriminate|].
    intros E; injection E as ->. now apply IH.
  - intros E; injection E as ->. eapply candidate_exn, Ep.
Qed.

Lemma collect_In_raise W ps p ex :
  In p ps -> candidate W p = Raise ex ->
  collect W ps = Raise ZeroDivisionError.
Proof.
  intros Hin Hp.
  destruct (collect W ps) as [ms|ex'] eqn:E.
  - exfalso. revert ms E. induction ps as [|p' ps IH]; [destruct Hin|].
    cbn [collect]. intros ms. destruct Hin as [->|Hin].
    + rewrite Hp. discriminate.
    + destruct (candidate W p'); cbn [bind]; [|discriminate].
      destruct (collect W ps) as [ns|] eqn:E'; cbn [bind]; [|discriminate].
      intros _. now apply (IH Hin ns).
  - now rewrite (collect_exn _ _ _ E).
Qed.

Lemma qualifying_pairs_In W es xs e x :
  In (e, x) (qualifying_pairs W es xs) <->
  In e es /\ In x xs /\ qualifies W e x = true.
Proof.
  unfold qualifying_pairs. rewrite filter_In, in_prod_iff. simpl. tauto.
Qed.

Lemma candidate_zero_max W e x :
  max_bytes e x = 0%Z -> candidate W (e, x) = Raise ZeroDivisionError.
Proof.
  intros E. unfold candidate, int_truediv. now rewrite E.
Qed.

Lemma collect_raise_inv W ps ex :
  collect W ps = Raise ex -> exists p ex', In p ps /\ candidate W p = Raise ex'.
Proof.
  induction ps as [|p ps IH]; cbn [collect]; [discriminate|].
  destruct (candidate W p) as [m|ex'] eqn:Ep; cbn [bind].
  - destruct (collect W ps) as [ms|ex'']; cbn [bind]; [discriminate|].
    intros E. destruct (IH E) as (q & ex' & Hq & Eq).
    exists q, ex'. split; [now right|exact Eq].
  - intros _. exists p, ex'. split; [now left|exact Ep].
Qed.

Lemma qualifies_iff W e x :
  qualifies W e x = true <->
  (byte_diff e x < 100)%Z
  /\ fltb fzero (delay_of e x) = true /\ fltb (delay_of e x) W = true.
Proof.
  unfold qualifies. rewrite !andb_true_iff, Z.ltb_lt. tauto.
Qed.

Lemma find_correlations_pair_unqualified W e x :
  qualifies W e x = false -> find_correlations [e] [x] W = Ok [].
Proof.
  intros Q. rewrite find_correlations_collect.
  unfold qualifying_pairs. cbn [list_prod map app filter fst snd].
  now rewrite Q.
Qed.

Context `{!PyFloatOrder F}.

Lemma candidate_link W e x :
  qualifies W e x = true -> max_bytes e x <> 0%Z ->
  candidate W (e, x) = Ok (link W e x).
Proof.
  unfold qualifies. intros Q Hm.
  apply andb_prop in Q as [_ Q]. apply andb_prop in Q as [Q1 Q2].
  unfold candidate, int_truediv, float_truediv.
  apply Z.eqb_neq in Hm. rewrite Hm. cbn [bind].
  now rewrite (flt_window_nonzero _ _ Q1 Q2).
Qed.

Lemma collect_links W ps :
  Forall (fun p => qualifies W (fst p) (snd p) = true
                   /\ max_bytes (fst p) (snd p) <> 0%Z) ps ->
  collect W ps = Ok (map (fun p => link W (fst p) (snd p)) ps).
Proof.
  induction 1 as [|[e x] ps [Q Hm] _ IH]; [reflexivity|].
  cbn [collect map fst snd] in *.
  now rewrite (candidate_link _ _ _ Q Hm), IH.
Qed.

(** The run returns exactly when no qualifying pair has a zero maximum,
    and then the matches are the links of the qualifying pairs in scan
    order. *)
Lemma find_correlations_links es xs W :
  (forall e x, In e es -> In x xs -> qualifies W e x = true ->
               max_bytes e x <> 0%Z) ->
  find_correlations es xs W =
  Ok (map (fun p => link W (fst p) (snd p)) (qualifying_pairs W es xs)).
Proof.
  intros Hnz. rewrite find_correlations_collect. apply collect_links.
  apply Forall_forall. intros [e x] Hin.
  apply qualifying_pairs_In in Hin as (He & Hx & Q). simpl. auto.
Qed.

Lemma find_correlations_Ok_nonzero es xs W ms :
  find_correlations es xs W = Ok ms ->
  forall e x, In e es -> In x xs -> qualifies W e x = true ->
              max_bytes e x <> 0%Z.
Proof.
  rewrite find_correlations_collect. intros E e x He Hx Q Hm.
  assert (Hin : In (e, x) (qualifying_pairs W es xs))
    by (apply qualifying_pairs_In; auto).
  rewrite (collect_In_raise _ _ _ _ Hin (candidate_zero_max W e x Hm)) in E.
  discriminate.
Qed.

Lemma find_correlations_Ok_links es xs W ms :
  find_correlations es xs W = Ok ms ->
  ms = map (fun p => link W (fst p) (snd p)) (qualifying_pairs W es xs).
Proof.
  intros E.
  rewrite (find_correlations_links es xs W
             (find_correlations_Ok_nonzero _ _ _ _ E)) in E.
  congruence.
Qed.

Lemma find_correlations_pair W e x :
  max_bytes e x <> 0%Z ->
  find_correlations [e] [x] W =
  Ok (if qualifies W e x then [link W e x] else []).
Proof.
  intros Hm. rewrite find_correlations_links.
  - unfold qualifying_pairs. cbn [list_prod map app filter fst snd].
    now destruct (qualifies W e x).
  - intros e' x' [<-|[]] [<-|[]] _. exact Hm.
Qed.

(** The only way a run raises: a qualifying pair with a zero maximum. *)
Lemma find_correlations_raise_inv es xs W ex :
  find_correlations es xs W = Raise ex ->
  ex = ZeroDivisionError
  /\ exists e x, In e es /\ In x xs /\ qualifies W e x = true
                 /\ Z.max (bytes e) (bytes x) = 0%Z.
Proof.
  rewrite find_correlations_collect. intros E.
  split; [exact (collect_exn _ _ _ E)|].
  destruct (collect_raise_inv _ _ _ E) as ([e x] & ex' & Hin & Ep).
  apply qualifying_pairs_In in Hin as (He & Hx & Q).
  exists e, x. repeat split; trivial.
  destruct (Z.eq_dec (max_bytes e x) 0) as [Hm|Hm]; [exact Hm|].
  rewrite (candidate_link _ _ _ Q Hm) in Ep. discriminate.
Qed.

(** ** Bounds of the scores *)

Context `{!PyFloatRounding F}.

(** 1 - r stays in [0, 1] for r in [0, 1]. *)
Lemma sub_one_range (r : F) :
  fleb fzero r = true -> fleb r fone = true ->
  fleb fzero (fsub fone r) = true /\ fleb (fsub fone r) fone = true.
Proof.
  intros L U. split.
  - eapply fle_trans; [apply fsub_one_one|].
    apply fsub_one_antitone; trivial. eapply fle_refl_r, U.
  - eapply fle_trans; [|apply fsub_one_zero].
    apply fsub_one_antitone; trivial. eapply fle_refl_l, L.
Qed.

(** p * 50 stays in [0, 50] for p in [0, 1]. *)
Lemma mul_fifty_range (p : F) :
  fleb fzero p = true -> fleb p fone = true ->
  fleb fzero (fmul p ffifty) = true /\ fleb (fmul p ffifty) ffifty = true.
Proof.
  intros L U. split.
  - eapply fle_trans; [apply fmul_zero_fifty|].
    apply fmul_fifty_monotone; trivial. eapply fle_refl_l, L.
  - eapply fle_trans; [|apply fmul_one_fifty].
    apply fmul_fifty_monotone; trivial. eapply fle_refl_r, U.
Qed.

Lemma byte_score_bounds (bd m : Z) :
  (0 <= bd <= m)%Z -> (0 < m)%Z ->
  fleb fzero (fmul (fsub fone (int_div bd m)) ffifty) = true
  /\ fleb (fmul (fsub fone (int_div bd m)) ffifty) ffifty = true.
Proof.
  intros Hbd Hm.
  destruct (sub_one_range (int_div bd m)) as [L U];
    [now apply int_div_nonneg|now apply int_div_le_one|].
  now apply mul_fifty_range.
Qed.

Lemma timing_score_bounds (d W : F) :
  fltb fzero d = true -> fltb d W = true ->
  fltb fzero (fmul (fsub fone (fdiv d W)) ffifty) = true
  /\ fleb (fmul (fsub fone (fdiv d W)) ffifty) ffifty = true.
Proof.
  intros D1 D2.
  pose proof (fdiv_nonneg d W D1 D2) as Q0.
  pose proof (fdiv_lt_one d W D1 D2) as Q1.
  destruct (sub_one_range (fdiv d W) Q0 (flt_fle _ _ Q1)) as [L U].
  split.
  - apply fmul_fifty_pos; [|exact U]. now apply fsub_one_pos.
  - now apply mul_fifty_range.
Qed.

Lemma nonneg_bytes_diff_max (e x : TrafficFlow F) :
  (0 <= bytes e)%Z -> (0 <= bytes x)%Z -> max_bytes e x <> 0%Z ->
  (0 <= byte_diff e x <= max_bytes e x)%Z /\ (0 < max_bytes e x)%Z.
Proof. unfold byte_diff, max_bytes. lia. Qed.

Lemma score_bounds W (e x : TrafficFlow F) :
  (0 <= bytes e)%Z -> (0 <= bytes x)%Z -> max_bytes e x <> 0%Z ->
  qualifies W e x = true ->
  fltb fzero (score W e x) = true /\ fleb (score W e x) (of_int 100) = true.
Proof.
  intros He Hx Hm Q.
  destruct (nonneg_bytes_diff_max e x He Hx Hm) as [Hbd Hpos].
  apply qualifies_iff in Q as (_ & D1 & D2).
  destruct (byte_score_bounds _ _ Hbd Hpos) as [B0 B50].
  destruct (timing_score_bounds _ _ D1 D2) as [T0 T50].
  pose proof (flt_fle _ _ T0) as T0'.
  unfold score, byte_score_of, timing_score_of. split.
  - apply fadd_pos; trivial.
  - eapply fle_trans; [|apply fadd_fifty_fifty].
    eapply fle_trans.
    + apply fadd_monotone_l; [exact B0|exact B50| |exact T0'|exact T50].
      eapply fle_refl_r, B50.
    + apply fadd_monotone_r; [apply fle_zero_fifty| |exact T0'|exact T50|];
        eapply fle_refl_r, B50.
Qed.

Lemma find_correlations_pair_inv W e x l :
  find_correlations [e] [x] W = Ok [l] ->
  qualifies W e x = true /\ max_bytes e x <> 0%Z /\ l = link W e x.
Proof.
  intros E.
  pose proof (find_correlations_Ok_nonzero _ _ _ _ E) as Hnz.
  apply find_correlations_Ok_links in E.
  unfold qualifying_pairs in E. cbn [list_prod map app filter fst snd] in E.
  destruct (qualifies W e x) eqn:Q; [|discriminate].
  cbn [map fst snd] in E. injection E as ->.
  repeat split. apply (Hnz e x); simpl; auto.
Qed.

End CorrelatorFacts.

(** ** The relay loop *)

Module RelaysFacts.

Import Relays.

Lemma for_relays_filter (rs : list Relay) : forall entry_nodes exit_nodes,
  for_relays rs entry_nodes exit_nodes =
  (entry_nodes
     ++ map node_info_of (filter (fun r => negb (has_exit_flag r)) rs),
   exit_nodes ++ map node_info_of (filter has_exit_flag rs)).
Proof.
  induction rs as [|r rs IH]; intros entry_nodes exit_nodes.
  - cbn. now rewrite !app_nil_r.
  - cbn [for_relays filter].
    destruct (has_exit_flag r) eqn:E; unfold has_exit_flag in E; rewrite E;
      cbn [negb map]; rewrite IH, <- app_assoc; reflexivity.
Qed.

Lemma filter_split_length {A} (f : A -> bool) (l : list A) :
  (List.length (filter (fun a => negb (f a)) l)
   + List.length (filter f l) = List.length l)%nat.
Proof.
  induction l as [|a l IH]; [reflexivity|].
  cbn [filter]. destruct (f a); cbn [negb List.length]; lia.
Qed.

Lemma filter_split_count {A} (f : A -> bool) (l : list A) (a : A)
    (eq_dec : forall x y : A, {x = y} + {x <> y}) :
  count_occ eq_dec (filter (fun a => negb (f a)) l) a
  = (if f a then 0%nat else count_occ eq_dec l a)
  /\ count_occ eq_dec (filter f l) a
     = (if f a then count_occ eq_dec l a else 0%nat).
Proof.
  induction l as [|b l [IH1 IH2]]; [destruct (f a); auto|].
  cbn [filter count_occ].
  destruct (eq_dec b a) as [->|N].
  - destruct (f a) eqn:E; cbn [negb count_occ];
      destruct (eq_dec a a); try congruence; split; auto.
  - destruct (f b); cbn [negb count_occ];
      destruct (eq_dec b a); try congruence; split; auto.
Qed.

(** The test of line 36 is membership of the string 'Exit'. *)
Lemma exit_in_In (fl : list string) :
  exit_in fl = true <-> In "Exit"%string fl.
Proof.
  unfold exit_in. rewrite existsb_exists. split.
  - intros (s & Hin & E). apply String.eqb_eq in E. now subst s.
  - intros Hin. exists "Exit"%string.
    split; [exact Hin|apply String.eqb_refl].
Qed.

Lemma has_exit_flag_in_dec (r : Relay) :
  has_exit_flag r
  = if in_dec string_dec "Exit"%string (dict_get (flags r) [])
    then true else false.
Proof.
  unfold has_exit_flag.
  destruct (in_dec string_dec "Exit"%string (dict_get (flags r) []))
    as [Hin|Hnot].
  - now apply exit_in_In.
  - apply not_true_is_false. intros T. apply Hnot. now apply exit_in_In.
Qed.

End RelaysFacts.

(** ** Binary64 comparisons satisfy the order laws *)

Module Binary64Order.

Lemma SFcompare_antisym (a b : spec_float) :
  SFcompare b a = option_map CompOpp (SFcompare a b).
Proof.
  destruct a as [sa|sa| |sa ma ea], b as [sb|sb| |sb mb eb]; simpl;
    try reflexivity;
    try (destruct sa; reflexivity);
    try (destruct sb; reflexivity);
    try (destruct sa, sb; reflexivity).
  destruct sa, sb; try reflexivity;
    rewrite (Z.compare_antisym ea eb);
    destruct (ea ?= eb)%Z; simpl; try reflexivity;
    pose proof (Pos.compare_cont_antisym ma mb Eq) as E;
    first [ exact (f_equal Some (eq_sym E))
          | exact (f_equal (fun c => Some (CompOpp c)) (eq_sym E)) ].
Qed.

Lemma SFleb_not_SFltb (a b : spec_float) :
  SFleb a b = true -> SFltb b a = false.
Proof.
  unfold SFleb, SFltb. rewrite (SFcompare_antisym a b).
  destruct (SFcompare a b) as [[| |]|]; simpl; congruence.
Qed.

Lemma Prim2SF_zero : Prim2SF (Binary64.of_int 0) = S754_zero false.
Proof. reflexivity. Qed.

Lemma SF_window_nonzero (d w : spec_float) :
  SFltb (S754_zero false) d = true -> SFltb d w = true ->
  SFeqb w (S754_zero false) = false.
Proof.
  unfold SFltb, SFeqb.
  destruct d as [sd|sd| |sd md ed], w as [sw|sw| |sw mw ew]; simpl;
    try discriminate; try reflexivity;
    try (destruct sw; reflexivity);
    destruct sd; simpl; try discriminate; try reflexivity.
Qed.

End Binary64Order.

#[export] Instance binary64_order : PyFloatOrder float.
Proof.
  split; simpl.
  - intros d w. rewrite !FloatAxioms.ltb_spec, FloatAxioms.eqb_spec, Binary64Order.Prim2SF_zero.
    apply Binary64Order.SF_window_nonzero.
  - intros a b. rewrite FloatAxioms.leb_spec, FloatAxioms.ltb_spec.
    apply Binary64Order.SFleb_not_SFltb.
Qed.

(** ** Exact arithmetic satisfies the laws *)

Module ExactFacts.

Import Exact.

Lemma ltb_lt (a b : Q) : ltb a b = true <-> a < b.
Proof.
  unfold ltb. rewrite negb_true_iff.
  split.
  - intros E. apply Qnot_le_lt. intros L. apply Qle_bool_iff in L. congruence.
  - intros L. apply not_true_is_false. intros E. apply Qle_bool_iff in E.
    apply (Qlt_not_le _ _ L E).
Qed.

Lemma inject_Z_pos (m : Z) : (0 < m)%Z -> 0 < inject_Z m.
Proof. intros Hm. change 0 with (inject_Z 0). now rewrite <- Zlt_Qlt. Qed.

Lemma inject_Z_nonneg (a : Z) : (0 <= a)%Z -> 0 <= inject_Z a.
Proof. intros Ha. change 0 with (inject_Z 0). now rewrite <- Zle_Qle. Qed.

Lemma div_monotone (a b w : Q) : 0 < w -> a <= b -> a / w <= b / w.
Proof.
  intros Hw Hab. unfold Qdiv. apply Qmult_le_compat_r; [exact Hab|].
  apply Qinv_le_0_compat. now apply Qlt_le_weak.
Qed.

Lemma div_nonneg (a w : Q) : 0 <= a -> 0 < w -> 0 <= a / w.
Proof.
  intros Ha Hw. apply Qle_shift_div_l; [exact Hw|]. now rewrite Qmult_0_l.
Qed.

End ExactFacts.

Ltac q_compare :=
  repeat match goal with
         | H : Qle_bool _ _ = true |- _ => apply Qle_bool_iff in H
         | H : Exact.ltb _ _ = true |- _ => apply ExactFacts.ltb_lt in H
         | |- Qle_bool _ _ = true => apply Qle_bool_iff
         | |- Exact.ltb _ _ = true => apply ExactFacts.ltb_lt
         end.

#[export] Instance exact_order : PyFloatOrder Q.
Proof.
  split; cbn [fltb fleb feqb of_int exact].
  - intros d w D1 D2. apply ExactFacts.ltb_lt in D1, D2.
    apply not_true_is_false. intros E. apply Qeq_bool_iff in E.
    rewrite E in D2. change (inject_Z 0) with 0 in *.
    apply (Qlt_irrefl 0). now apply Qlt_trans with d.
  - intros a b L. apply Qle_bool_iff in L.
    apply not_true_is_false. intros E. apply ExactFacts.ltb_lt in E.
    apply (Qlt_not_le _ _ E L).
Qed.

#[export] Instance exact_rounding : PyFloatRounding Q.
Proof.
  split; cbn [fltb fleb feqb of_int fadd fsub fmul fdiv int_div exact];
    change (inject_Z 0) with 0; change (inject_Z 1) with 1;
    change (inject_Z 50) with 50; change (inject_Z 100) with 100;
    try reflexivity;
    intros; q_compare; try lra.
  - apply ExactFacts.div_monotone; [apply ExactFacts.inject_Z_pos; lia|].
    rewrite <- Zle_Qle. lia.
  - apply ExactFacts.div_monotone; lra.
  - apply ExactFacts.div_nonneg; [apply ExactFacts.inject_Z_nonneg; lia|].
    apply ExactFacts.inject_Z_pos; lia.
  - apply Qle_shift_div_r; [apply ExactFacts.inject_Z_pos; lia|].
    rewrite Qmult_1_l, <- Zle_Qle. lia.
  - apply ExactFacts.div_nonneg; lra.
  - apply Qlt_shift_div_r; lra.
Qed.

(** ** Properties of the rounding *)

Module Round53Facts.

Import Round53.
Local Open Scope Q_scope.

Lemma two_pos e : 0 < two e.
Proof. apply Qpower_0_lt. reflexivity. Qed.

Lemma two_add a b : two (a + b) == two a * two b.
Proof. apply Qpower_plus. discriminate. Qed.

Lemma two_opp a : two a * two (- a) == 1.
Proof. rewrite <- two_add, Z.add_opp_diag_r. reflexivity. Qed.

Lemma two_le a b : (a <= b)%Z -> two a <= two b.
Proof. intros L. apply Qpower_le_compat_l; [exact L|discriminate]. Qed.

Lemma two_lt a b : (a < b)%Z -> two a < two b.
Proof. intros L. apply Qpower_lt_compat_l; [exact L|reflexivity]. Qed.

Lemma two_lt_inv a b : two a < two b -> (a < b)%Z.
Proof. intros L. apply (Qpower_lt_compat_l_inv 2); [exact L|reflexivity]. Qed.

Lemma two_Z a : (0 <= a)%Z -> two a == inject_Z (2 ^ a).
Proof. intros Ha. unfold two. now rewrite Zpower_Qpower. Qed.

Lemma rne_floor x : (Qfloor x <= rne x <= Qfloor x + 1)%Z.
Proof.
  unfold rne. destruct (Qcompare _ _); [destruct (Z.even _)| |]; lia.
Qed.

Lemma rne_Z (z : Z) : rne (inject_Z z) = z.
Proof.
  unfold rne. rewrite Qfloor_Z.
  destruct (Qcompare_spec (inject_Z z - inject_Z z) (1 # 2)) as [E|E|E];
    try reflexivity; exfalso; lra.
Qed.

Lemma rne_monotone x y : x <= y -> (rne x <= rne y)%Z.
Proof.
  intros L. pose proof (Qfloor_resp_le _ _ L) as Lf.
  destruct (Z.eq_dec (Qfloor x) (Qfloor y)) as [E|N].
  - unfold rne. rewrite <- E.
    destruct (Qcompare_spec (x - inject_Z (Qfloor x)) (1 # 2)) as [Ex|Ex|Ex];
    destruct (Qcompare_spec (y - inject_Z (Qfloor x)) (1 # 2)) as [Ey|Ey|Ey];
      try destruct (Z.even (Qfloor x)); try lia; exfalso; lra.
  - pose proof (rne_floor x). pose proof (rne_floor y). lia.
Qed.

#[export] Instance rne_comp : Proper (Qeq ==> eq) rne.
Proof.
  intros x y E. unfold rne. rewrite (Qfloor_comp _ _ E).
  assert (E' : x - inject_Z (Qfloor y) == y - inject_Z (Qfloor y))
    by (rewrite E; reflexivity).
  now rewrite (Qcompare_comp _ _ E' (1 # 2) (1 # 2) (Qeq_refl _)).
Qed.

Lemma Q_num_den (q : Q) : q * inject_Z (Zpos (Qden q)) == inject_Z (Qnum q).
Proof.
  destruct q as [n d]. unfold Qeq, Qmult, inject_Z. simpl. lia.
Qed.

Lemma ilog2_estimate (q : Q) :
  0 < q ->
  let k := (Z.log2 (Qnum q) - Z.log2 (Zpos (Qden q)))%Z in
  two (k - 1) < q < two (k + 1).
Proof.
  intros Hq k.
  assert (Hn : (0 < Qnum q)%Z) by (destruct q; unfold Qlt in Hq; simpl in *; lia).
  set (n := Qnum q) in *. set (d := Zpos (Qden q)) in *.
  assert (Hd : (0 < d)%Z) by reflexivity.
  destruct (Z.log2_spec n Hn) as [Ln Un].
  destruct (Z.log2_spec d Hd) as [Ld Ud].
  pose proof (Z.log2_nonneg n) as An. pose proof (Z.log2_nonneg d) as Ad.
  set (a := Z.log2 n) in *. set (b := Z.log2 d) in *.
  assert (Hdq : 0 < inject_Z d) by (rewrite <- (Zlt_Qlt 0); exact Hd).
  pose proof (Q_num_den q) as E. fold n d in E.
  rewrite Zle_Qle, <- (two_Z a An) in Ln.
  rewrite Zlt_Qlt, <- (two_Z (a + 1)) in Un by lia.
  rewrite Zle_Qle, <- (two_Z b Ad) in Ld.
  rewrite Zlt_Qlt, <- (two_Z (b + 1)) in Ud by lia.
  split.
  - apply (Qmult_lt_r _ _ (inject_Z d) Hdq). rewrite E.
    apply Qlt_le_trans with (two a); [|exact Ln].
    replace a with ((k - 1) + (b + 1))%Z by (unfold k; lia).
    rewrite two_add. apply Qmult_lt_l; [apply two_pos|exact Ud].
  - apply (Qmult_lt_r _ _ (inject_Z d) Hdq). rewrite E.
    apply Qlt_le_trans with (two (a + 1)); [exact Un|].
    replace (a + 1)%Z with ((k + 1) + b)%Z by (unfold k; lia).
    rewrite two_add. apply Qmult_le_l; [apply two_pos|exact Ld].
Qed.

Lemma ilog2_spec (q : Q) : 0 < q -> two (ilog2 q) <= q < two (ilog2 q + 1).
Proof.
  intros Hq. destruct (ilog2_estimate q Hq) as [L U]. unfold ilog2.
  set (k := (Z.log2 (Qnum q) - Z.log2 (Zpos (Qden q)))%Z) in *.
  destruct (Qle_bool (two k) q) eqn:E.
  - apply Qle_bool_iff in E. split; assumption.
  - split; [now apply Qlt_le_weak|].
    replace (k - 1 + 1)%Z with k by lia.
    apply Qnot_le_lt. intros C. apply Qle_bool_iff in C. congruence.
Qed.

Lemma ilog2_unique (q : Q) (k : Z) : two k <= q < two (k + 1) -> ilog2 q = k.
Proof.
  intros [L U].
  assert (Hq : 0 < q) by (apply Qlt_le_trans with (two k); [apply two_pos|exact L]).
  destruct (ilog2_spec q Hq) as [L' U'].
  assert (k < ilog2 q + 1)%Z by (apply two_lt_inv; now apply Qle_lt_trans with q).
  assert (ilog2 q < k + 1)%Z by (apply two_lt_inv; now apply Qle_lt_trans with q).
  lia.
Qed.

Lemma ilog2_monotone (a b : Q) : 0 < a -> a <= b -> (ilog2 a <= ilog2 b)%Z.
Proof.
  intros Ha L.
  assert (Hb : 0 < b) by now apply Qlt_le_trans with a.
  destruct (ilog2_spec a Ha) as [La _]. destruct (ilog2_spec b Hb) as [_ Ub].
  assert (ilog2 a < ilog2 b + 1)%Z; [|lia].
  apply two_lt_inv. apply Qle_lt_trans with a; [exact La|].
  now apply Qle_lt_trans with b.
Qed.

Lemma ilog2_comp_pos (a b : Q) : 0 < a -> a == b -> ilog2 a = ilog2 b.
Proof.
  intros Ha E. symmetry. apply ilog2_unique. rewrite <- E. now apply ilog2_spec.
Qed.

Lemma scale_back (q : Q) (e : Z) : q * two (- e) * two e == q.
Proof.
  rewrite <- Qmult_assoc, (Qmult_comm (two (- e))), two_opp. apply Qmult_1_r.
Qed.

Lemma fexp_monotone (a b : Q) : 0 < a -> a <= b -> (fexp a <= fexp b)%Z.
Proof.
  intros Ha L. pose proof (ilog2_monotone a b Ha L). unfold fexp. lia.
Qed.

(** Rounding does not cross a power of two that is a multiple of the last
    place. *)
Lemma rnd_pos_le_two (q : Q) (j : Z) :
  0 < q -> q <= two j -> (fexp q <= j)%Z -> rnd_pos q <= two j.
Proof.
  intros Hq L Hj. unfold rnd_pos.
  assert (E : two j == inject_Z (2 ^ (j - fexp q)) * two (fexp q)).
  { rewrite <- two_Z by lia. rewrite <- two_add. now replace (j - fexp q + fexp q)%Z with j by lia. }
  rewrite E. apply Qmult_le_compat_r; [|apply Qlt_le_weak, two_pos].
  rewrite <- Zle_Qle. rewrite <- (rne_Z (2 ^ (j - fexp q))).
  apply rne_monotone. rewrite <- two_Z by lia.
  replace (j - fexp q)%Z with (j + - fexp q)%Z by lia. rewrite two_add.
  apply Qmult_le_compat_r; [exact L|apply Qlt_le_weak, two_pos].
Qed.

Lemma rnd_pos_ge_two (q : Q) (j : Z) :
  0 < q -> two j <= q -> (fexp q <= j)%Z -> two j <= rnd_pos q.
Proof.
  intros Hq L Hj. unfold rnd_pos.
  assert (E : two j == inject_Z (2 ^ (j - fexp q)) * two (fexp q)).
  { rewrite <- two_Z by lia. rewrite <- two_add. now replace (j - fexp q + fexp q)%Z with j by lia. }
  rewrite E. apply Qmult_le_compat_r; [|apply Qlt_le_weak, two_pos].
  rewrite <- Zle_Qle. rewrite <- (rne_Z (2 ^ (j - fexp q))) at 1.
  apply rne_monotone. rewrite <- two_Z by lia.
  replace (j - fexp q)%Z with (j + - fexp q)%Z by lia. rewrite two_add.
  apply Qmult_le_compat_r; [exact L|apply Qlt_le_weak, two_pos].
Qed.

Lemma rnd_pos_monotone (a b : Q) : 0 < a -> a <= b -> rnd_pos a <= rnd_pos b.
Proof.
  intros Ha L.
  assert (Hb : 0 < b) by now apply Qlt_le_trans with a.
  pose proof (fexp_monotone a b Ha L) as He.
  destruct (Z.eq_dec (fexp a) (fexp b)) as [E|N].
  - unfold rnd_pos. rewrite E.
    apply Qmult_le_compat_r; [|apply Qlt_le_weak, two_pos].
    rewrite <- Zle_Qle. apply rne_monotone.
    apply Qmult_le_compat_r; [exact L|apply Qlt_le_weak, two_pos].
  - destruct (ilog2_spec a Ha) as [_ Ua]. destruct (ilog2_spec b Hb) as [Lb _].
    assert (Eb : fexp b = (ilog2 b - 52)%Z) by (unfold fexp, emin in *; lia).
    apply Qle_trans with (two (ilog2 b)).
    + apply Qle_trans with (two (Z.max (ilog2 a + 1) (fexp a))).
      * apply rnd_pos_le_two; [exact Ha| |lia].
        apply Qle_trans with (two (ilog2 a + 1)); [now apply Qlt_le_weak|].
        apply two_le. lia.
      * apply two_le. unfold fexp in *. lia.
    + apply rnd_pos_ge_two; [exact Hb|exact Lb|lia].
Qed.

Lemma rnd_pos_nonneg (q : Q) : 0 < q -> 0 <= rnd_pos q.
Proof.
  intros Hq. unfold rnd_pos.
  apply Qmult_le_0_compat; [|apply Qlt_le_weak, two_pos].
  change 0 with (inject_Z 0). rewrite <- Zle_Qle, <- (rne_Z 0).
  apply rne_monotone. apply Qmult_le_0_compat; [now apply Qlt_le_weak|].
  apply Qlt_le_weak, two_pos.
Qed.

Lemma rnd_pos_comp (a b : Q) : 0 < a -> a == b -> rnd_pos a == rnd_pos b.
Proof.
  intros Ha E. unfold rnd_pos, fexp. rewrite <- (ilog2_comp_pos a b Ha E).
  assert (E' : a * two (- Z.max (ilog2 a - 52) emin)
               == b * two (- Z.max (ilog2 a - 52) emin))
    by (apply Qmult_comp; [exact E|reflexivity]).
  now rewrite (rne_comp _ _ E').
Qed.

(** A positive rational that is an integer multiple of its last place is
    not changed by rounding. *)
Lemma rnd_pos_fix (v : Q) (n : Z) :
  v == inject_Z n * two (fexp v) -> rnd_pos v == v.
Proof.
  intros E. unfold rnd_pos.
  assert (E' : v * two (- fexp v) == inject_Z n).
  { rewrite E at 1. rewrite <- Qmult_assoc, two_opp. apply Qmult_1_r. }
  rewrite (rne_comp _ _ E'), rne_Z. now symmetry.
Qed.

Lemma scaled_lt (q : Q) : 0 < q -> q * two (- fexp q) < two 53.
Proof.
  intros Hq. destruct (ilog2_spec q Hq) as [_ U].
  apply Qlt_le_trans with (two (ilog2 q + 1) * two (- fexp q)).
  - apply Qmult_lt_compat_r; [apply two_pos|exact U].
  - rewrite <- two_add. apply two_le. unfold fexp. lia.
Qed.

Lemma scaled_ge (q : Q) :
  0 < q -> (emin < fexp q)%Z -> two 52 <= q * two (- fexp q).
Proof.
  intros Hq He. destruct (ilog2_spec q Hq) as [L _].
  apply Qle_trans with (two (ilog2 q) * two (- fexp q)).
  - rewrite <- two_add. apply two_le. unfold fexp in *. lia.
  - apply Qmult_le_compat_r; [exact L|apply Qlt_le_weak, two_pos].
Qed.

Lemma rne_scaled_bounds (q : Q) :
  0 < q -> (0 <= rne (q * two (- fexp q)) <= 2 ^ 53)%Z.
Proof.
  intros Hq. split.
  - rewrite <- (rne_Z 0). apply rne_monotone.
    apply Qmult_le_0_compat; apply Qlt_le_weak; [exact Hq|apply two_pos].
  - rewrite <- (rne_Z (2 ^ 53)). apply rne_monotone.
    rewrite <- two_Z by lia. apply Qlt_le_weak, scaled_lt, Hq.
Qed.

Lemma rnd_pos_idem (q : Q) :
  0 < q -> rnd_pos q == 0 \/ (0 < rnd_pos q /\ rnd_pos (rnd_pos q) == rnd_pos q).
Proof.
  intros Hq. destruct (rne_scaled_bounds q Hq) as [L U].
  set (e := fexp q) in *. set (n := rne (q * two (- e))) in *.
  assert (Hv : rnd_pos q == inject_Z n * two e) by reflexivity.
  destruct (Z.eq_dec n 0) as [Z|NZ].
  - left. rewrite Hv, Z. apply Qmult_0_l.
  - right.
    assert (Hpos : 0 < rnd_pos q).
    { rewrite Hv. apply Qmult_lt_0_compat; [|apply two_pos].
      change 0 with (inject_Z 0). rewrite <- Zlt_Qlt. lia. }
    split; [exact Hpos|].
    set (v := rnd_pos q) in *.
    destruct (Z.eq_dec n (2 ^ 53)) as [Top|NTop].
    + assert (Ev : v == two (e + 53)).
      { rewrite Hv, Top, <- two_Z, Qmult_comm, <- two_add by lia. reflexivity. }
      assert (Kv : ilog2 v = (e + 53)%Z).
      { apply ilog2_unique. rewrite Ev. split; [apply Qle_refl|]. apply two_lt. lia. }
      apply (rnd_pos_fix v (2 ^ 52)). unfold fexp. rewrite Kv.
      assert (emin <= e)%Z by (unfold e, fexp; lia).
      replace (Z.max (e + 53 - 52) emin) with (e + 1)%Z by lia.
      rewrite Ev, <- two_Z, <- two_add by lia.
      now replace (52 + (e + 1))%Z with (e + 53)%Z by lia.
    + assert (Uv : v < two (e + 53)).
      { rewrite Hv, two_add, (Qmult_comm (two e)).
        apply Qmult_lt_compat_r; [apply two_pos|].
        rewrite two_Z by lia. rewrite <- Zlt_Qlt. lia. }
      destruct (ilog2_spec v Hpos) as [Lv _].
      assert (Kv : (ilog2 v < e + 53)%Z).
      { apply two_lt_inv. now apply Qle_lt_trans with v. }
      assert (emin <= e)%Z by (unfold e, fexp; lia).
      assert (Fv : (emin <= fexp v <= e)%Z) by (unfold fexp; lia).
      apply (rnd_pos_fix v (n * 2 ^ (e - fexp v))).
      transitivity (inject_Z n * two e); [exact Hv|].
      rewrite inject_Z_mult, <- two_Z by lia.
      rewrite <- Qmult_assoc, <- two_add.
      now replace (e - fexp v + fexp v)%Z with e by lia.
Qed.

Lemma rnd_zero (q : Q) : q == 0 -> rnd q = 0.
Proof.
  intros E. unfold rnd. now rewrite (Qcompare_comp _ _ E 0 0 (Qeq_refl 0)).
Qed.

Lemma rnd_positive (q : Q) : 0 < q -> rnd q = rnd_pos q.
Proof.
  intros Hq. unfold rnd. destruct (Qcompare_spec q 0) as [E|E|E];
    try reflexivity; exfalso; lra.
Qed.

Lemma rnd_negative (q : Q) : q < 0 -> rnd q = - rnd_pos (- q).
Proof.
  intros Hq. unfold rnd. destruct (Qcompare_spec q 0) as [E|E|E];
    try reflexivity; exfalso; lra.
Qed.

Lemma rnd_comp (a b : Q) : a == b -> rnd a == rnd b.
Proof.
  intros E. unfold rnd. rewrite (Qcompare_comp _ _ E 0 0 (Qeq_refl 0)).
  destruct (Qcompare_spec b 0) as [H|H|H]; [reflexivity| |].
  - apply Qopp_comp, rnd_pos_comp; lra.
  - apply rnd_pos_comp; lra.
Qed.

Lemma rnd_nonneg (q : Q) : 0 <= q -> 0 <= rnd q.
Proof.
  intros Hq. destruct (Qeq_dec q 0) as [E|N].
  - rewrite (rnd_zero q E). apply Qle_refl.
  - assert (0 < q) by (apply Qle_lteq in Hq as [?|E]; [assumption|now symmetry in E]).
    rewrite rnd_positive by assumption. now apply rnd_pos_nonneg.
Qed.

Lemma rnd_monotone (a b : Q) : a <= b -> rnd a <= rnd b.
Proof.
  intros L.
  destruct (Qcompare_spec a 0) as [Ea|Ea|Ea], (Qcompare_spec b 0) as [Eb|Eb|Eb];
    try (exfalso; lra).
  - rewrite (rnd_zero a Ea), (rnd_zero b Eb). apply Qle_refl.
  - rewrite (rnd_zero a Ea). apply rnd_nonneg. lra.
  - rewrite (rnd_zero b Eb), (rnd_negative a Ea).
    assert (0 <= rnd_pos (- a)) by (apply rnd_pos_nonneg; lra). lra.
  - rewrite (rnd_negative a Ea), (rnd_negative b Eb).
    assert (rnd_pos (- b) <= rnd_pos (- a)) by (apply rnd_pos_monotone; lra). lra.
  - rewrite (rnd_negative a Ea), (rnd_positive b Eb).
    assert (0 <= rnd_pos (- a)) by (apply rnd_pos_nonneg; lra).
    assert (0 <= rnd_pos b) by (apply rnd_pos_nonneg; lra). lra.
  - rewrite (rnd_positive a Ea), (rnd_positive b Eb).
    now apply rnd_pos_monotone.
Qed.

Lemma rnd_idem (q : Q) : rnd (rnd q) == rnd q.
Proof.
  destruct (Qcompare_spec q 0) as [E|E|E].
  - rewrite (rnd_zero q E). reflexivity.
  - rewrite (rnd_negative q E).
    destruct (rnd_pos_idem (- q)) as [Z|[P I]]; [lra| |].
    + assert (Z' : - rnd_pos (- q) == 0) by lra.
      rewrite (rnd_zero _ Z'). now symmetry.
    + rewrite rnd_negative by lra.
      apply Qopp_comp. rewrite <- I at 2.
      apply rnd_pos_comp; lra.
  - rewrite (rnd_positive q E).
    destruct (rnd_pos_idem q E) as [Z|[P I]].
    + rewrite (rnd_zero _ Z). now symmetry.
    + now rewrite rnd_positive.
Qed.

(** A positive number that rounding leaves alone has a significand of at
    most 53 bits, and of exactly 53 bits above the least exponent. *)
Lemma fix_decomp (v : Q) :
  0 < v -> rnd_pos v == v ->
  exists n : Z,
    v == inject_Z n * two (fexp v)
    /\ (0 < n < 2 ^ 53)%Z
    /\ ((emin < fexp v)%Z -> (2 ^ 52 <= n)%Z).
Proof.
  intros Hv Fix. set (e := fexp v). set (n := rne (v * two (- e))).
  assert (E : v == inject_Z n * two e) by (symmetry; exact Fix).
  assert (S : v * two (- e) == inject_Z n).
  { rewrite E at 1. rewrite <- Qmult_assoc, two_opp. apply Qmult_1_r. }
  exists n. split; [exact E|]. split; [split|].
  - rewrite Zlt_Qlt, <- S. apply Qmult_lt_0_compat; [exact Hv|apply two_pos].
  - rewrite Zlt_Qlt, <- S, <- two_Z by lia. now apply scaled_lt.
  - intros He. rewrite Zle_Qle, <- S, <- two_Z by lia. now apply scaled_ge.
Qed.

Lemma two_m53 : two (-53) == 1 # 9007199254740992.
Proof. reflexivity. Qed.

(** Two distinct positive numbers of the format differ by at least one
    part in 2^53 of the larger. *)
Lemma fix_gap (d w : Q) :
  0 < d -> d < w -> rnd_pos d == d -> rnd_pos w == w ->
  d <= (1 - two (-53)) * w.
Proof.
  intros Hd L Fd Fw.
  assert (Hw : 0 < w) by now apply Qlt_trans with d.
  destruct (fix_decomp d Hd Fd) as (nd & Ed & [Pd Ud] & _).
  destruct (fix_decomp w Hw Fw) as (nw & Ew & [Pw Uw] & Nw).
  pose proof (fexp_monotone d w Hd (Qlt_le_weak _ _ L)) as He.
  rewrite two_m53.
  destruct (Z.eq_dec (fexp d) (fexp w)) as [E|N].
  - rewrite E in Ed. set (T := two (fexp w)) in *.
    assert (HT : 0 < T) by apply two_pos.
    assert (Hn : (nd + 1 <= nw)%Z).
    { assert (nd < nw)%Z; [|lia].
      rewrite Zlt_Qlt. apply (Qmult_lt_r _ _ T HT). now rewrite <- Ed, <- Ew. }
    assert (G : d + T <= w).
    { rewrite Ed, Ew.
      setoid_replace (inject_Z nd * T + T) with (inject_Z (nd + 1) * T)
        by (rewrite inject_Z_plus; ring).
      apply Qmult_le_compat_r; [|now apply Qlt_le_weak].
      now rewrite <- Zle_Qle. }
    assert (B : w <= 9007199254740992 * T).
    { rewrite Ew. apply Qmult_le_compat_r; [|now apply Qlt_le_weak].
      change 9007199254740992 with (inject_Z (2 ^ 53)).
      rewrite <- Zle_Qle. lia. }
    lra.
  - assert (Hlt : (fexp d <= fexp w - 1)%Z) by lia.
    assert (Hnw : (2 ^ 52 <= nw)%Z) by (apply Nw; unfold fexp in *; lia).
    set (T := two (fexp w - 1)) in *.
    assert (HT : 0 < T) by apply two_pos.
    assert (E2 : two (fexp w) == 2 * T).
    { unfold T. replace (fexp w) with (1 + (fexp w - 1))%Z at 1 by lia.
      now rewrite two_add. }
    assert (Bd : d <= 9007199254740991 * T).
    { rewrite Ed.
      apply Qle_trans with (inject_Z nd * T).
      - apply Qmult_le_l; [change 0 with (inject_Z 0); rewrite <- Zlt_Qlt; lia|].
        now apply two_le.
      - apply Qmult_le_compat_r; [|now apply Qlt_le_weak].
        change 9007199254740991 with (inject_Z (2 ^ 53 - 1)).
        rewrite <- Zle_Qle. lia. }
    assert (Bw : 9007199254740992 * T <= w).
    { rewrite Ew, E2.
      setoid_replace (9007199254740992 * T) with (inject_Z (2 ^ 52) * (2 * T))
        by (change (inject_Z (2 ^ 52)) with 4503599627370496; ring).
      apply Qmult_le_compat_r; [now rewrite <- Zle_Qle|lra]. }
    lra.
Qed.

End Round53Facts.

(** ** Binary64 operations round to nearest

    The operations of [SpecFloat], which specify the primitive floats,
    compute [Round53.rnd] of the exact result on the values the correlator
    handles. *)

Module Binary64Facts.

Import Stdlib.Floats.Floats.
Import Round53 Round53Facts Binary64Value.
Local Open Scope Q_scope.

Lemma located_comp (X Y : Q) (mrs : shr_record) :
  X == Y -> located X mrs -> located Y mrs.
Proof.
  intros E. unfold located. destruct (shr_r mrs), (shr_s mrs); rewrite E; trivial.
Qed.

Lemma inject_xO (p : positive) : inject_Z (Zpos p~0) == 2 * inject_Z (Zpos p).
Proof. change (Zpos p~0) with (2 * Zpos p)%Z. now rewrite inject_Z_mult. Qed.

Lemma inject_xI (p : positive) : inject_Z (Zpos p~1) == 2 * inject_Z (Zpos p) + 1.
Proof.
  change (Zpos p~1) with (2 * Zpos p + 1)%Z.
  now rewrite inject_Z_plus, inject_Z_mult.
Qed.

Lemma two_m1 : two (-1) == 1 # 2.
Proof. reflexivity. Qed.

Lemma shr_1_located (X : Q) (mrs : shr_record) :
  (0 <= shr_m mrs)%Z -> located X mrs ->
  located (X * two (-1)) (shr_1 mrs) /\ (0 <= shr_m (shr_1 mrs))%Z.
Proof.
  destruct mrs as [m r s]. cbn [shr_m]. intros Hm L.
  destruct m as [|p|p]; [| |lia].
  - unfold located in *; cbn [shr_1 shr_m shr_r shr_s] in *.
    change (two (-1)) with (1 # 2). change (inject_Z 0) with 0 in *.
    destruct r, s; cbn [orb] in *; split; try lia; lra.
  - pose proof (inject_xO) as EO. pose proof (inject_xI) as EI.
    unfold located in *; cbn [shr_1 shr_m shr_r shr_s] in *.
    change (two (-1)) with (1 # 2).
    destruct p as [p|p|]; cbn [shr_m shr_r shr_s];
      [specialize (EI p)|specialize (EO p)
      |change (inject_Z 1) with 1 in L; change (inject_Z 0) with 0];
      destruct r, s; cbn [orb] in *; split; try lia; lra.
Qed.

Lemma iter_shr_1_located (p : positive) : forall (X : Q) (mrs : shr_record),
  (0 <= shr_m mrs)%Z -> located X mrs ->
  located (X * two (- Zpos p)) (iter_pos shr_1 p mrs)
  /\ (0 <= shr_m (iter_pos shr_1 p mrs))%Z.
Proof.
  induction p as [p IH|p IH|]; intros X mrs Hm L; cbn [iter_pos].
  - destruct (shr_1_located X mrs Hm L) as [L1 H1].
    destruct (IH _ _ H1 L1) as [L2 H2].
    destruct (IH _ _ H2 L2) as [L3 H3].
    split; [|exact H3].
    refine (located_comp _ _ _ _ L3).
    rewrite <- !Qmult_assoc, <- !two_add.
    now replace (- Zpos p~1)%Z with (-1 + (- Zpos p + - Zpos p))%Z by lia.
  - destruct (IH _ _ Hm L) as [L2 H2].
    destruct (IH _ _ H2 L2) as [L3 H3].
    split; [|exact H3].
    refine (located_comp _ _ _ _ L3).
    rewrite <- !Qmult_assoc, <- !two_add.
    now replace (- Zpos p~0)%Z with (- Zpos p + - Zpos p)%Z by lia.
  - apply shr_1_located; assumption.
Qed.

Lemma Qfloor_unique (X : Q) (m : Z) :
  inject_Z m <= X -> X < inject_Z m + 1 -> Qfloor X = m.
Proof.
  intros L U.
  pose proof (Qfloor_le X) as F1. pose proof (Qlt_floor X) as F2.
  rewrite inject_Z_plus in F2. change (inject_Z 1) with 1 in F2.
  assert (m < Qfloor X + 1)%Z.
  { rewrite Zlt_Qlt, inject_Z_plus. change (inject_Z 1) with 1. lra. }
  assert (Qfloor X < m + 1)%Z.
  { rewrite Zlt_Qlt, inject_Z_plus. change (inject_Z 1) with 1. lra. }
  lia.
Qed.

Lemma rne_located (X : Q) (mrs : shr_record) :
  located X mrs ->
  rne X = round_nearest_even (shr_m mrs) (loc_of_shr_record mrs).
Proof.
  destruct mrs as [m r s]. unfold located. cbn [shr_m shr_r shr_s].
  intros L.
  assert (F : Qfloor X = m) by (apply Qfloor_unique; destruct r, s; lra).
  unfold rne. rewrite F.
  destruct (Qcompare_spec (X - inject_Z m) (1 # 2)) as [E|E|E];
    destruct r, s; cbn [loc_of_shr_record round_nearest_even];
    try reflexivity; exfalso; lra.
Qed.

Lemma digits2_size (p : positive) : digits2_pos p = Pos.size p.
Proof. induction p; simpl; congruence. Qed.

Lemma digits2_log2 (p : positive) :
  Zpos (digits2_pos p) = (Z.log2 (Zpos p) + 1)%Z.
Proof.
  rewrite digits2_size. destruct p; simpl; try reflexivity;
    now rewrite Pos.add_1_r.
Qed.

Lemma ilog2_scale (X : Q) (e : Z) : 0 < X -> ilog2 (X * two e) = (ilog2 X + e)%Z.
Proof.
  intros HX. destruct (ilog2_spec X HX) as [L U]. apply ilog2_unique.
  replace (ilog2 X + e + 1)%Z with (ilog2 X + 1 + e)%Z by lia.
  rewrite (two_add (ilog2 X) e), (two_add (ilog2 X + 1) e). split.
  - apply Qmult_le_compat_r; [exact L|apply Qlt_le_weak, two_pos].
  - apply Qmult_lt_compat_r; [apply two_pos|exact U].
Qed.

Lemma ilog2_floor (X : Q) (m : positive) :
  inject_Z (Zpos m) <= X -> X < inject_Z (Zpos m) + 1 ->
  ilog2 X = Z.log2 (Zpos m).
Proof.
  intros L U. apply ilog2_unique.
  destruct (Z.log2_spec (Zpos m) eq_refl) as [L2 U2].
  pose proof (Z.log2_nonneg (Zpos m)) as H0.
  rewrite !two_Z by lia. split.
  - apply Qle_trans with (inject_Z (Zpos m)); [|exact L]. now rewrite <- Zle_Qle.
  - apply Qlt_le_trans with (inject_Z (Zpos m) + 1); [exact U|].
    change 1 with (inject_Z 1). rewrite <- inject_Z_plus, <- Zle_Qle. lia.
Qed.

Lemma fexpS_eq (z : Z) : fexpS z = Z.max (z - 53) (-1074).
Proof. reflexivity. Qed.

Lemma located_bounds (X : Q) (mrs : shr_record) :
  located X mrs -> inject_Z (shr_m mrs) <= X /\ X < inject_Z (shr_m mrs) + 1.
Proof. unfold located. destruct (shr_r mrs), (shr_s mrs); lra. Qed.

Lemma fexpS_digits (X : Q) (m : positive) (ex : Z) :
  inject_Z (Zpos m) <= X -> X < inject_Z (Zpos m) + 1 ->
  fexpS (Zdigits2 (Zpos m) + ex) = fexp (X * two ex).
Proof.
  intros L U.
  assert (HX : 0 < X).
  { apply Qlt_le_trans with (inject_Z (Zpos m)); [|exact L]. reflexivity. }
  rewrite fexpS_eq. unfold fexp, emin. cbn [Zdigits2].
  rewrite (ilog2_scale X ex HX), (ilog2_floor X m L U), digits2_log2. lia.
Qed.

Lemma shr_located (X : Q) (mrs : shr_record) (e n : Z) :
  (0 <= shr_m mrs)%Z -> located X mrs -> (0 <= n)%Z ->
  located (X * two (- n)) (fst (shr mrs e n))
  /\ (0 <= shr_m (fst (shr mrs e n)))%Z
  /\ snd (shr mrs e n) = (e + n)%Z.
Proof.
  intros Hm L Hn. destruct n as [|p|p]; [| |lia]; cbn [shr fst snd].
  - split; [|split; [exact Hm|lia]].
    refine (located_comp _ _ _ _ L). change (two (- 0)) with 1. ring.
  - destruct (iter_shr_1_located p X mrs Hm L) as [L' H']. auto.
Qed.

Lemma two_le_inv (a b : Z) : two a <= two b -> (a <= b)%Z.
Proof. intros L. apply (Qpower_le_compat_l_inv 2); [exact L|reflexivity]. Qed.

Lemma shr_m_of_loc (m : Z) (l : location) : shr_m (shr_record_of_loc m l) = m.
Proof. destruct l as [|[]]; reflexivity. Qed.

Lemma fexp_upper (q : Q) : 0 < q -> q <= two 1023 -> (emin <= fexp q <= 971)%Z.
Proof.
  intros Hq U. destruct (ilog2_spec q Hq) as [L _].
  assert (ilog2 q <= 1023)%Z by (apply two_le_inv; now apply Qle_trans with q).
  unfold fexp, emin. lia.
Qed.

Lemma valid_finite (p : positive) (e : Z) :
  Z.max (Zpos (digits2_pos p) + e - 53) (-1074) = e -> (e <= 971)%Z ->
  valid_binary (S754_finite false p e) = true.
Proof.
  intros Hc He. cbn [valid_binary]. unfold bounded, canonical_mantissa.
  apply andb_true_intro. split.
  - apply Z.eqb_eq. exact Hc.
  - apply Z.leb_le. exact He.
Qed.

Lemma binary_round_aux_correct (m ex : Z) (lx : location) (X : Q) :
  (0 <= m)%Z -> located X (shr_record_of_loc m lx) -> 0 < X ->
  fexpS (Zdigits2 m + ex) = fexp (X * two ex) ->
  (ex <= fexp (X * two ex))%Z ->
  X * two ex <= two 1023 ->
  valid_binary (binary_round_aux prec emax false m ex lx) = true
  /\ nonneg_finite (binary_round_aux prec emax false m ex lx)
  /\ SFval (binary_round_aux prec emax false m ex lx) == rnd_pos (X * two ex).
Proof.
  intros Hm L HX Hf Hal Hub.
  set (q := X * two ex) in *.
  assert (Hq : 0 < q) by (apply Qmult_lt_0_compat; [exact HX|apply two_pos]).
  destruct (fexp_upper q Hq Hub) as [Hlo Hhi].
  unfold binary_round_aux, shr_fexp.
  change (SpecFloat.fexp prec emax) with fexpS. rewrite Hf.
  set (e1 := fexp q) in *.
  assert (Hm' : (0 <= shr_m (shr_record_of_loc m lx))%Z)
    by now rewrite shr_m_of_loc.
  destruct (shr_located X _ ex (e1 - ex) Hm' L ltac:(lia)) as (L1 & H1 & E1).
  destruct (shr (shr_record_of_loc m lx) ex (e1 - ex)) as [mrs' e'].
  cbn [fst snd] in L1, H1, E1.
  replace e' with e1 by lia. clear E1 e'.
  assert (Hs : X * two (- (e1 - ex)) == q * two (- e1)).
  { unfold q. rewrite <- Qmult_assoc, <- two_add.
    now replace (ex + - e1)%Z with (- (e1 - ex))%Z by lia. }
  rewrite <- (rne_located _ _ L1), (rne_comp _ _ Hs).
  fold e1. set (n := rne (q * two (- e1))).
  assert (Hv : rnd_pos q == inject_Z n * two e1) by reflexivity.
  destruct (rne_scaled_bounds q Hq) as [Hn0 Hn53]. fold e1 n in Hn0, Hn53.
  assert (Hn52 : (emin < e1)%Z -> (2 ^ 52 <= n)%Z).
  { intros He. rewrite <- (rne_Z (2 ^ 52)). apply rne_monotone.
    rewrite <- two_Z by lia. now apply scaled_ge. }
  rewrite Hv. unfold emin in *.
  destruct n as [|p|p]; [| |lia].
  - (* the result is zero *)
    assert (Hz : (fexpS (Zdigits2 0 + e1) - e1 <= 0)%Z)
      by (rewrite fexpS_eq; cbn [Zdigits2]; lia).
    cbn [shr_record_of_loc round_nearest_even].
    destruct (fexpS (Zdigits2 0 + e1) - e1)%Z as [|z|z]; [| lia |];
      cbn [shr shr_m fst snd];
      (split; [reflexivity|split; [exact I|]]); cbn [SFval];
      change (inject_Z 0) with 0; now rewrite Qmult_0_l.
  - destruct (Z.eq_dec (Zpos p) (2 ^ 53)) as [Top|NTop].
    + (* the significand carries into the next binade *)
      injection Top as ->.
      replace (fexpS (Zdigits2 9007199254740992 + e1) - e1)%Z with 1%Z
        by (rewrite fexpS_eq; cbn [Zdigits2 digits2_pos Pos.succ]; lia).
      cbn [shr iter_pos shr_1 shr_m fst snd shr_record_of_loc].
      assert (Hv' : rnd_pos q <= two 1023) by (apply rnd_pos_le_two; trivial; lia).
      assert (He : (e1 + 53 <= 1023)%Z).
      { apply two_le_inv. rewrite Hv in Hv'.
        change (inject_Z 9007199254740992) with (two 53) in Hv'.
        now rewrite <- two_add, Z.add_comm in Hv'. }
      replace (e1 + 1 <=? emax - prec)%Z with true
        by (symmetry; apply Z.leb_le; change (emax - prec)%Z with 971%Z; lia).
      split; [|split; [exact I|]].
      * apply valid_finite; [cbn [digits2_pos Pos.succ]|]; lia.
      * cbn [SFval].
        change (inject_Z 4503599627370496) with (two 52).
        change (inject_Z 9007199254740992) with (two 53).
        rewrite <- !two_add. now replace (52 + (e1 + 1))%Z with (53 + e1)%Z by lia.
    + (* the significand fits *)
      assert (Hlog : (0 <= Z.log2 (Zpos p) <= 52)%Z).
      { split; [apply Z.log2_nonneg|].
        assert (Z.log2 (Zpos p) < 53)%Z; [|lia].
        apply Z.log2_lt_pow2; lia. }
      assert (Hlog' : (-1074 < e1 -> Z.log2 (Zpos p) = 52)%Z).
      { intros He. specialize (Hn52 He).
        pose proof (Z.log2_le_mono _ _ Hn52) as M.
        change (Z.log2 (2 ^ 52)) with 52%Z in M. lia. }
      assert (Hd : (Z.max (Zpos (digits2_pos p) + e1 - 53) (-1074) = e1)%Z)
        by (rewrite digits2_log2; lia).
      replace (fexpS (Zdigits2 (Zpos p) + e1) - e1)%Z with 0%Z
        by (rewrite fexpS_eq; cbn [Zdigits2]; lia).
      cbn [shr shr_m fst snd shr_record_of_loc].
      replace (e1 <=? emax - prec)%Z with true
        by (symmetry; apply Z.leb_le; change (emax - prec)%Z with 971%Z; lia).
      split; [|split; [exact I|reflexivity]].
      apply valid_finite; lia.
Qed.

Lemma valid_canonical (m : positive) (e : Z) :
  valid_binary (S754_finite false m e) = true ->
  Z.max (Z.log2 (Zpos m) - 52 + e) (-1074) = e /\ (e <= 971)%Z.
Proof.
  cbn [valid_binary]. unfold bounded, canonical_mantissa. intros V.
  apply andb_prop in V as [C B]. apply Z.eqb_eq in C. apply Z.leb_le in B.
  change (SpecFloat.fexp prec emax) with fexpS in C.
  rewrite fexpS_eq, digits2_log2 in C. change (emax - prec)%Z with 971%Z in B.
  split; [lia|exact B].
Qed.

Lemma valid_mantissa (m : positive) (e : Z) :
  valid_binary (S754_finite false m e) = true ->
  (Zpos m < 2 ^ 53)%Z /\ (-1074 <= e)%Z /\ ((-1074 < e)%Z -> (2 ^ 52 <= Zpos m)%Z).
Proof.
  intros V. destruct (valid_canonical m e V) as [C _].
  pose proof (Z.log2_nonneg (Zpos m)) as H0.
  destruct (Z.log2_spec (Zpos m) eq_refl) as [L U].
  assert (Z.log2 (Zpos m) <= 52)%Z by lia.
  split; [|split; [lia|]].
  - apply Z.lt_le_trans with (2 ^ Z.succ (Z.log2 (Zpos m)))%Z; [exact U|].
    apply Z.pow_le_mono_r; lia.
  - intros He. assert (E : Z.log2 (Zpos m) = 52%Z) by lia.
    now rewrite E in L.
Qed.

Lemma SFval_pos (m : positive) (e : Z) : 0 < SFval (S754_finite false m e).
Proof. cbn [SFval]. apply Qmult_lt_0_compat; [reflexivity|apply two_pos]. Qed.

Lemma valid_fexp (m : positive) (e : Z) :
  valid_binary (S754_finite false m e) = true ->
  fexp (SFval (S754_finite false m e)) = e.
Proof.
  intros V. destruct (valid_canonical m e V) as [C _]. cbn [SFval].
  rewrite <- (fexpS_digits (inject_Z (Zpos m)) m e); [|apply Qle_refl|lra].
  cbn [Zdigits2]. rewrite fexpS_eq, digits2_log2. lia.
Qed.

(** A valid number is not changed by rounding. *)
Lemma valid_fix (m : positive) (e : Z) :
  valid_binary (S754_finite false m e) = true ->
  rnd_pos (SFval (S754_finite false m e)) == SFval (S754_finite false m e).
Proof.
  intros V. apply (rnd_pos_fix _ (Zpos m)). rewrite (valid_fexp m e V). reflexivity.
Qed.

(** The order of two valid positive numbers is that of their values. *)
Lemma valid_lt_exponent (m1 m2 : positive) (e1 e2 : Z) :
  valid_binary (S754_finite false m1 e1) = true ->
  valid_binary (S754_finite false m2 e2) = true ->
  (e1 < e2)%Z ->
  SFval (S754_finite false m1 e1) < SFval (S754_finite false m2 e2).
Proof.
  intros V1 V2 He.
  destruct (valid_mantissa m1 e1 V1) as (U1 & L1 & _).
  destruct (valid_mantissa m2 e2 V2) as (_ & _ & N2).
  specialize (N2 ltac:(lia)). cbn [SFval].
  apply Qlt_le_trans with (two 53 * two e1).
  - apply Qmult_lt_compat_r; [apply two_pos|].
    rewrite two_Z by lia. now rewrite <- Zlt_Qlt.
  - apply Qle_trans with (two 52 * two e2).
    + rewrite <- !two_add. apply two_le. lia.
    + apply Qmult_le_compat_r; [|apply Qlt_le_weak, two_pos].
      rewrite two_Z by lia. now rewrite <- Zle_Qle.
Qed.

Lemma SFcompare_pos (m1 m2 : positive) (e1 e2 : Z) :
  valid_binary (S754_finite false m1 e1) = true ->
  valid_binary (S754_finite false m2 e2) = true ->
  SFcompare (S754_finite false m1 e1) (S754_finite false m2 e2)
  = Some (Qcompare (SFval (S754_finite false m1 e1))
                   (SFval (S754_finite false m2 e2))).
Proof.
  intros V1 V2. cbn [SFcompare]. f_equal.
  destruct (Z.compare_spec e1 e2) as [E|E|E].
  - subst e2. change (Pos.compare_cont Eq m1 m2) with (Pos.compare m1 m2).
    cbn [SFval]. symmetry.
    destruct (Pos.compare_spec m1 m2) as [C|C|C].
    + subst. apply Qeq_alt. reflexivity.
    + apply Qlt_alt. apply Qmult_lt_compat_r; [apply two_pos|].
      rewrite <- Zlt_Qlt. lia.
    + apply Qgt_alt. apply Qmult_lt_compat_r; [apply two_pos|].
      rewrite <- Zlt_Qlt. lia.
  - symmetry. apply Qlt_alt. now apply valid_lt_exponent.
  - symmetry. apply Qgt_alt. now apply valid_lt_exponent.
Qed.

Lemma nonneg_valid_val (x : spec_float) : nonneg_valid x -> 0 <= SFval x.
Proof.
  intros [_ N]. destruct x as [s|s| |[] m e]; try destruct N; cbn [SFval];
    try apply Qle_refl.
  apply Qlt_le_weak. apply (SFval_pos m e).
Qed.

Lemma SFcompare_nonneg (x y : spec_float) :
  nonneg_valid x -> nonneg_valid y ->
  SFcompare x y = Some (Qcompare (SFval x) (SFval y)).
Proof.
  intros [Vx Nx] [Vy Ny].
  destruct x as [sx|sx| |[] mx ex]; try destruct Nx;
  destruct y as [sy|sy| |[] my ey]; try destruct Ny.
  - reflexivity.
  - cbn [SFcompare]. f_equal. symmetry. apply Qlt_alt. apply SFval_pos.
  - cbn [SFcompare]. f_equal. symmetry. apply Qgt_alt. apply (SFval_pos mx ex).
  - now apply SFcompare_pos.
Qed.

Lemma SFleb_nonneg (x y : spec_float) :
  nonneg_valid x -> nonneg_valid y ->
  (SFleb x y = true <-> SFval x <= SFval y).
Proof.
  intros Hx Hy. unfold SFleb. rewrite (SFcompare_nonneg x y Hx Hy).
  rewrite Qle_alt. destruct (Qcompare _ _); split; congruence.
Qed.

Lemma SFltb_nonneg (x y : spec_float) :
  nonneg_valid x -> nonneg_valid y ->
  (SFltb x y = true <-> SFval x < SFval y).
Proof.
  intros Hx Hy. unfold SFltb. rewrite (SFcompare_nonneg x y Hx Hy).
  rewrite Qlt_alt. destruct (Qcompare _ _); split; congruence.
Qed.

Lemma nonneg_valid_fix (x : spec_float) :
  nonneg_valid x -> rnd (SFval x) == SFval x.
Proof.
  intros [V N]. destruct x as [s|s| |[] m e]; try destruct N; cbn [SFval];
    try reflexivity.
  rewrite rnd_positive by apply (SFval_pos m e). now apply valid_fix.
Qed.

Lemma located_exact (m : Z) : located (inject_Z m) (shr_record_of_loc m loc_Exact).
Proof. unfold located. cbn. reflexivity. Qed.

Lemma SFmul_correct (mx my : positive) (ex ey : Z) :
  (2 ^ 52 <= Zpos my)%Z ->
  SFval (S754_finite false mx ex) * SFval (S754_finite false my ey) <= two 1023 ->
  nonneg_valid (SF64mul (S754_finite false mx ex) (S754_finite false my ey))
  /\ SFval (SF64mul (S754_finite false mx ex) (S754_finite false my ey))
     == rnd (SFval (S754_finite false mx ex) * SFval (S754_finite false my ey)).
Proof.
  intros Hmy Hub. unfold SF64mul. cbn [SFmul xorb].
  set (X := inject_Z (Zpos (mx * my))).
  assert (E : SFval (S754_finite false mx ex) * SFval (S754_finite false my ey)
              == X * two (ex + ey)).
  { cbn [SFval]. unfold X. rewrite Pos2Z.inj_mul, inject_Z_mult, two_add. ring. }
  assert (HX : 0 < X) by reflexivity.
  assert (Hq : 0 < X * two (ex + ey))
    by (apply Qmult_lt_0_compat; [exact HX|apply two_pos]).
  rewrite (rnd_comp _ _ E), (rnd_positive _ Hq).
  rewrite E in Hub.
  assert (Hf : fexpS (Zdigits2 (Zpos (mx * my)) + (ex + ey))
               = fexp (X * two (ex + ey))).
  { apply fexpS_digits; unfold X; lra. }
  destruct (binary_round_aux_correct (Zpos (mx * my)) (ex + ey) loc_Exact X)
    as (V & N & S); trivial.
  - lia.
  - apply located_exact.
  - rewrite <- Hf, fexpS_eq. cbn [Zdigits2]. rewrite digits2_log2.
    assert (52 <= Z.log2 (Zpos (mx * my)))%Z; [|lia].
    change 52%Z with (Z.log2 (2 ^ 52)). apply Z.log2_le_mono.
    rewrite Pos2Z.inj_mul. nia.
  - split; [split|]; assumption.
Qed.

Lemma iter_xO (m d : positive) : Zpos (Pos.iter xO m d) = (Zpos m * 2 ^ Zpos d)%Z.
Proof.
  induction d as [|d IH] using Pos.peano_ind.
  - cbn. lia.
  - rewrite Pos.iter_succ, Pos2Z.inj_xO, IH, Pos2Z.inj_succ, Z.pow_succ_r; lia.
Qed.

Lemma shl_align_spec (m : positive) (e e' : Z) :
  inject_Z (Zpos (fst (shl_align m e e'))) * two (snd (shl_align m e e'))
  == inject_Z (Zpos m) * two e
  /\ snd (shl_align m e e') = Z.min e e'.
Proof.
  unfold shl_align. destruct (e' - e)%Z as [|d|d] eqn:D; cbn [fst snd].
  - split; [reflexivity|lia].
  - split; [reflexivity|lia].
  - split; [|lia].
    rewrite iter_xO, inject_Z_mult, <- two_Z, <- Qmult_assoc, <- two_add by lia.
    now replace (Zpos d + e')%Z with e by lia.
Qed.

Lemma binary_normalize_correct (m : positive) (e : Z) :
  inject_Z (Zpos m) * two e <= two 1023 ->
  nonneg_valid (binary_normalize prec emax (Zpos m) e false)
  /\ SFval (binary_normalize prec emax (Zpos m) e false)
     == rnd_pos (inject_Z (Zpos m) * two e).
Proof.
  intros Hub. cbn [binary_normalize]. unfold binary_round.
  change (SpecFloat.fexp prec emax) with fexpS.
  set (f := fexpS (Zpos (digits2_pos m) + e)).
  destruct (shl_align_spec m e f) as [Ev Ee].
  destruct (shl_align m e f) as [mz ez]. cbn [fst snd] in Ev, Ee.
  set (X := inject_Z (Zpos mz)) in *.
  assert (HX : 0 < X) by reflexivity.
  assert (Hq : 0 < inject_Z (Zpos m) * two e)
    by (apply Qmult_lt_0_compat; [reflexivity|apply two_pos]).
  assert (Hf0 : f = fexp (inject_Z (Zpos m) * two e)).
  { unfold f. change (Zpos (digits2_pos m)) with (Zdigits2 (Zpos m)).
    apply fexpS_digits; lra. }
  assert (Hfq : fexp (X * two ez) = f).
  { unfold fexp. rewrite (ilog2_comp_pos (X * two ez) (inject_Z (Zpos m) * two e)).
    - symmetry. exact Hf0.
    - apply Qmult_lt_0_compat; [exact HX|apply two_pos].
    - exact Ev. }
  rewrite <- (rnd_pos_comp _ _ ltac:(apply Qmult_lt_0_compat; [exact HX|apply two_pos]) Ev).
  rewrite <- Ev in Hub.
  destruct (binary_round_aux_correct (Zpos mz) ez loc_Exact X)
    as (V & N & S); trivial.
  - lia.
  - apply located_exact.
  - rewrite (fexpS_digits X mz ez); unfold X; try lra. reflexivity.
  - rewrite Hfq. lia.
  - split; [split|]; assumption.
Qed.

Lemma shl_align_min (m : positive) (e ez : Z) :
  (ez <= e)%Z ->
  inject_Z (Zpos (fst (shl_align m e ez))) * two ez == inject_Z (Zpos m) * two e.
Proof.
  intros He. destruct (shl_align_spec m e ez) as [Ev Ee].
  rewrite <- Ev, Ee. now replace (Z.min e ez) with ez by lia.
Qed.

Lemma nonneg_valid_zero (s : bool) : nonneg_valid (S754_zero s).
Proof. split; [reflexivity|exact I]. Qed.

Lemma SFadd_correct (x y : spec_float) :
  nonneg_valid x -> nonneg_valid y ->
  SFval x + SFval y <= two 1023 ->
  nonneg_valid (SF64add x y)
  /\ SFval (SF64add x y) == rnd (SFval x + SFval y).
Proof.
  intros Hx Hy Hub.
  pose proof (nonneg_valid_fix x Hx) as Fx.
  pose proof (nonneg_valid_fix y Hy) as Fy.
  destruct x as [sx|sx| |[] mx ex]; try (now destruct Hx as [_ []]);
  destruct y as [sy|sy| |[] my ey]; try (now destruct Hy as [_ []]).
  - assert (Z : SFval (S754_zero sx) + SFval (S754_zero sy) == 0)
      by (cbn [SFval]; ring).
    rewrite (rnd_zero _ Z). unfold SF64add. cbn [SFadd].
    destruct sx, sy; split; try apply nonneg_valid_zero; reflexivity.
  - unfold SF64add. cbn [SFadd]. split; [exact Hy|].
    rewrite <- Fy at 1. apply rnd_comp. cbn [SFval]. ring.
  - unfold SF64add. cbn [SFadd]. split; [exact Hx|].
    rewrite <- Fx at 1. apply rnd_comp. cbn [SFval]. ring.
  - unfold SF64add. cbn [SFadd cond_Zopp].
    set (ez := Z.min ex ey).
    pose proof (shl_align_min mx ex ez ltac:(lia)) as Ax.
    pose proof (shl_align_min my ey ez ltac:(lia)) as Ay.
    set (ax := fst (shl_align mx ex ez)) in *.
    set (ay := fst (shl_align my ey ez)) in *.
    change (Zpos ax + Zpos ay)%Z with (Zpos (ax + ay)).
    assert (E : inject_Z (Zpos (ax + ay)) * two ez
                == SFval (S754_finite false mx ex) + SFval (S754_finite false my ey)).
    { cbn [SFval]. rewrite <- Ax, <- Ay, Pos2Z.inj_add, inject_Z_plus. ring. }
    assert (P : 0 < inject_Z (Zpos (ax + ay)) * two ez)
      by (apply Qmult_lt_0_compat; [reflexivity|apply two_pos]).
    rewrite <- (rnd_comp _ _ E), (rnd_positive _ P).
    apply binary_normalize_correct. now rewrite E.
Qed.

Lemma SFsub_correct (x y : spec_float) :
  nonneg_valid x -> nonneg_valid y ->
  SFval y <= SFval x -> SFval x <= two 1023 ->
  nonneg_valid (SF64sub x y)
  /\ SFval (SF64sub x y) == rnd (SFval x - SFval y).
Proof.
  intros Hx Hy Hle Hub.
  pose proof (nonneg_valid_fix x Hx) as Fx.
  destruct x as [sx|sx| |[] mx ex]; try (now destruct Hx as [_ []]);
  destruct y as [sy|sy| |[] my ey]; try (now destruct Hy as [_ []]).
  - assert (Z : SFval (S754_zero sx) - SFval (S754_zero sy) == 0)
      by (cbn [SFval]; ring).
    rewrite (rnd_zero _ Z). unfold SF64sub. cbn [SFsub].
    destruct sx, sy; split; try apply nonneg_valid_zero; reflexivity.
  - exfalso. pose proof (SFval_pos my ey) as P. cbn [SFval] in *. lra.
  - unfold SF64sub. cbn [SFsub]. split; [exact Hx|].
    rewrite <- Fx at 1. apply rnd_comp. cbn [SFval]. ring.
  - unfold SF64sub. cbn [SFsub cond_Zopp].
    set (ez := Z.min ex ey).
    pose proof (shl_align_min mx ex ez ltac:(lia)) as Ax.
    pose proof (shl_align_min my ey ez ltac:(lia)) as Ay.
    set (ax := fst (shl_align mx ex ez)) in *.
    set (ay := fst (shl_align my ey ez)) in *.
    assert (E : inject_Z (Zpos ax - Zpos ay) * two ez
                == SFval (S754_finite false mx ex) - SFval (S754_finite false my ey)).
    { cbn [SFval]. rewrite <- Ax, <- Ay. unfold Z.sub.
      rewrite inject_Z_plus, inject_Z_opp. ring. }
    pose proof (two_pos ez) as T.
    destruct (Zpos ax - Zpos ay)%Z as [|p|p] eqn:D.
    + cbn [binary_normalize]. split; [apply nonneg_valid_zero|].
      rewrite rnd_zero; [reflexivity|]. rewrite <- E. ring.
    + assert (P : 0 < inject_Z (Zpos p) * two ez)
        by (apply Qmult_lt_0_compat; [reflexivity|exact T]).
      rewrite <- (rnd_comp _ _ E), (rnd_positive _ P).
      apply binary_normalize_correct. rewrite E.
      pose proof (SFval_pos my ey). lra.
    + exfalso.
      assert (N : inject_Z (Zneg p) * two ez < 0).
      { setoid_replace (inject_Z (Zneg p) * two ez)
          with (- (inject_Z (Zpos p) * two ez)) by (change (Zneg p) with (- Zpos p)%Z; rewrite inject_Z_opp; ring).
        assert (0 < inject_Z (Zpos p) * two ez)
          by (apply Qmult_lt_0_compat; [reflexivity|exact T]). lra. }
      rewrite E in N. lra.
Qed.

Lemma Qdiv_split (q r d : Z) :
  (0 < d)%Z ->
  inject_Z (d * q + r) / inject_Z d == inject_Z q + inject_Z r / inject_Z d.
Proof.
  intros Hd. assert (N : ~ inject_Z d == 0).
  { intros E. apply (Qlt_irrefl 0). rewrite <- E at 2.
    change 0 with (inject_Z 0) at 1. now rewrite <- Zlt_Qlt. }
  rewrite inject_Z_plus, inject_Z_mult. field. exact N.
Qed.

Lemma located_new_location (q r d : Z) :
  (0 < d)%Z -> (0 <= r < d)%Z ->
  located (inject_Z q + inject_Z r / inject_Z d)
          (shr_record_of_loc q (new_location d r)).
Proof.
  intros Hd Hr.
  assert (Pd : 0 < inject_Z d) by (change 0 with (inject_Z 0); now rewrite <- Zlt_Qlt).
  set (R := inject_Z r / inject_Z d).
  assert (E : R * inject_Z d == inject_Z r).
  { unfold R. field. intros E. rewrite E in Pd. apply (Qlt_irrefl _ Pd). }
  assert (Half : forall c : comparison,
             (2 * r ?= d)%Z = c ->
             match c with
             | Lt => R < 1 # 2
             | Eq => R == 1 # 2
             | Gt => 1 # 2 < R
             end).
  { intros c Hc. destruct (Z.compare_spec (2 * r) d) as [C|C|C]; subst c.
    - apply (Qmult_inj_r _ _ (inject_Z d)); [intros Z; rewrite Z in Pd; apply (Qlt_irrefl _ Pd)|].
      rewrite E, <- C, inject_Z_mult. field.
    - apply (Qmult_lt_r _ _ (inject_Z d) Pd). rewrite E.
      apply (Qmult_lt_l _ _ 2); [reflexivity|].
      setoid_replace (2 * ((1 # 2) * inject_Z d)) with (inject_Z d) by ring.
      change 2 with (inject_Z 2). now rewrite <- inject_Z_mult, <- Zlt_Qlt.
    - apply (Qmult_lt_r _ _ (inject_Z d) Pd). rewrite E.
      apply (Qmult_lt_l _ _ 2); [reflexivity|].
      setoid_replace (2 * ((1 # 2) * inject_Z d)) with (inject_Z d) by ring.
      change 2 with (inject_Z 2). now rewrite <- inject_Z_mult, <- Zlt_Qlt. }
  assert (R0 : 0 <= R).
  { apply (Qmult_le_r _ _ (inject_Z d) Pd). rewrite E, Qmult_0_l.
    change 0 with (inject_Z 0). rewrite <- Zle_Qle. lia. }
  assert (R1 : R < 1).
  { apply (Qmult_lt_r _ _ (inject_Z d) Pd). rewrite E, Qmult_1_l.
    rewrite <- Zlt_Qlt. lia. }
  assert (Rz : r = 0%Z -> R == 0).
  { intros ->. unfold R. change (inject_Z 0) with 0. field.
    intros Z. rewrite Z in Pd. apply (Qlt_irrefl _ Pd). }
  assert (Rp : r <> 0%Z -> 0 < R).
  { intros Hn. apply (Qmult_lt_r _ _ (inject_Z d) Pd). rewrite E, Qmult_0_l.
    change 0 with (inject_Z 0). rewrite <- Zlt_Qlt. lia. }
  unfold new_location, new_location_even, new_location_odd.
  destruct (Z.even d) eqn:Ev.
  - destruct (Z.eqb_spec r 0) as [Z|NZ].
    + unfold located. cbn. rewrite (Rz Z). ring.
    + specialize (Rp NZ). specialize (Half _ eq_refl).
      destruct (2 * r ?= d)%Z; unfold located; cbn; lra.
  - destruct (Z.eqb_spec r 0) as [Z|NZ].
    + unfold located. cbn. rewrite (Rz Z). ring.
    + specialize (Rp NZ).
      assert (Odd : (2 * r <> d)%Z).
      { intros C. rewrite <- C, Z.even_mul in Ev. discriminate. }
      pose proof (Half _ eq_refl) as H2.
      destruct (Z.compare_spec (2 * r + 1) d) as [C|C|C];
        destruct (Z.compare_spec (2 * r) d) as [C'|C'|C']; try lia;
        unfold located; cbn; lra.
Qed.

Lemma ilog2_lower (v : Q) (k : Z) : two k <= v -> (k <= ilog2 v)%Z.
Proof.
  intros L.
  assert (Hv : 0 < v) by (apply Qlt_le_trans with (two k); [apply two_pos|exact L]).
  destruct (ilog2_spec v Hv) as [_ U].
  assert (k < ilog2 v + 1)%Z; [|lia].
  apply two_lt_inv. now apply Qle_lt_trans with v.
Qed.

Lemma ilog2_upper (v : Q) (k : Z) : 0 < v -> v < two k -> (ilog2 v < k)%Z.
Proof.
  intros Hv U. destruct (ilog2_spec v Hv) as [L _].
  apply two_lt_inv. now apply Qle_lt_trans with v.
Qed.

Lemma inject_pos (p : positive) : 0 < inject_Z (Zpos p).
Proof. reflexivity. Qed.

Lemma two_inv (e : Z) : two (- e) == / two e.
Proof. apply Qpower_opp. Qed.

Lemma two_nonzero (e : Z) : ~ two e == 0.
Proof. pose proof (two_pos e). intros E. rewrite E in H. apply (Qlt_irrefl _ H). Qed.

(** The quotient of two positive integers against the powers of two given
    by their bit lengths. *)
Lemma quotient_bounds (mx my : positive) :
  two (Z.log2 (Zpos mx) - Z.log2 (Zpos my) - 1)
  <= inject_Z (Zpos mx) / inject_Z (Zpos my).
Proof.
  destruct (Z.log2_spec (Zpos mx) eq_refl) as [Lx _].
  destruct (Z.log2_spec (Zpos my) eq_refl) as [_ Uy].
  pose proof (Z.log2_nonneg (Zpos mx)). pose proof (Z.log2_nonneg (Zpos my)).
  apply Qle_shift_div_l; [apply inject_pos|].
  apply Qle_trans with (two (Z.log2 (Zpos mx))); [|rewrite two_Z by lia; now rewrite <- Zle_Qle].
  apply Qle_trans with (two (Z.log2 (Zpos mx) - Z.log2 (Zpos my) - 1)
                        * two (Z.log2 (Zpos my) + 1)).
  - apply Qmult_le_l; [apply two_pos|].
    rewrite two_Z by lia. rewrite <- Zle_Qle.
    replace (Z.log2 (Zpos my) + 1)%Z with (Z.succ (Z.log2 (Zpos my))) by lia. lia.
  - rewrite <- two_add. apply two_le. lia.
Qed.

Lemma SFdiv_correct (mx my : positive) (ex ey : Z) :
  SFval (S754_finite false mx ex) / SFval (S754_finite false my ey) <= two 1023 ->
  nonneg_valid (SF64div (S754_finite false mx ex) (S754_finite false my ey))
  /\ SFval (SF64div (S754_finite false mx ex) (S754_finite false my ey))
     == rnd (SFval (S754_finite false mx ex) / SFval (S754_finite false my ey)).
Proof.
  intros Hub. unfold SF64div. cbn [SFdiv xorb]. unfold SFdiv_core_binary.
  change (SpecFloat.fexp prec emax) with fexpS.
  cbn [Zdigits2]. rewrite !digits2_log2, fexpS_eq.
  set (lx := Z.log2 (Zpos mx)). set (ly := Z.log2 (Zpos my)).
  set (e' := Z.min (Z.max (lx + 1 + ex - (ly + 1 + ey) - 53) (-1074)) (ex - ey)).
  set (s := (ex - ey - e')%Z).
  assert (Hs : (0 <= s)%Z) by (unfold s, e'; lia).
  set (m' := match s with
             | 0%Z => Zpos mx
             | Zpos _ => Z.shiftl (Zpos mx) s
             | Zneg _ => 0%Z
             end).
  assert (Em : m' = (Zpos mx * 2 ^ s)%Z).
  { unfold m'. destruct s as [|p|p]; [lia| |lia].
    apply Z.shiftl_mul_pow2. lia. }
  assert (Pm : (0 < m')%Z) by (rewrite Em; apply Z.mul_pos_pos; [reflexivity|apply Z.pow_pos_nonneg; lia]).
  pose proof (Z_div_mod m' (Zpos my) eq_refl) as DM.
  destruct (Z.div_eucl m' (Zpos my)) as [q r]. destruct DM as [Eq Hr].
  set (X := inject_Z m' / inject_Z (Zpos my)).
  assert (HX : 0 < X).
  { unfold X. apply Qlt_shift_div_l; [apply inject_pos|].
    rewrite Qmult_0_l. change 0 with (inject_Z 0). now rewrite <- Zlt_Qlt. }
  assert (EX : X == inject_Z q + inject_Z r / inject_Z (Zpos my)).
  { unfold X. rewrite Eq. now apply Qdiv_split. }
  assert (Loc : located X (shr_record_of_loc q (new_location (Zpos my) r))).
  { apply (located_comp (inject_Z q + inject_Z r / inject_Z (Zpos my)));
      [now symmetry|]. now apply located_new_location. }
  assert (Ev : X * two e'
               == SFval (S754_finite false mx ex) / SFval (S754_finite false my ey)).
  { assert (Tex : two ex == two s * two e' * two ey).
    { rewrite <- !two_add. now replace (s + e' + ey)%Z with ex by (unfold s; lia). }
    cbn [SFval]. unfold X. rewrite Em, inject_Z_mult, <- two_Z, Tex by lia.
    field. split; [apply two_nonzero|].
    intros Z. discriminate Z. }
  assert (Hq0 : (0 <= q)%Z).
  { destruct (located_bounds _ _ Loc) as [_ U]. rewrite shr_m_of_loc in U.
    assert (0 < q + 1)%Z; [|lia].
    rewrite Zlt_Qlt, inject_Z_plus. change (inject_Z 0) with 0.
    change (inject_Z 1) with 1. lra. }
  assert (Lq : two (lx - ly - 1 + (ex - ey)) <= X * two e').
  { rewrite Ev. cbn [SFval].
    setoid_replace (inject_Z (Zpos mx) * two ex / (inject_Z (Zpos my) * two ey))
      with (inject_Z (Zpos mx) / inject_Z (Zpos my) * two (ex - ey)).
    - rewrite two_add. apply Qmult_le_compat_r; [apply quotient_bounds|].
      apply Qlt_le_weak, two_pos.
    - unfold Z.sub at 1. rewrite two_add, two_inv. field.
      split; [apply two_nonzero|]. intros Z. discriminate Z. }
  pose proof (ilog2_lower _ _ Lq) as Hlog.
  assert (He' : (e' <= Z.max (lx - ly + (ex - ey) - 53) (-1074))%Z)
    by (unfold e'; lia).
  assert (Hal : (e' <= fexp (X * two e'))%Z) by (unfold fexp, emin; lia).
  assert (Hf : fexpS (Zdigits2 q + e') = fexp (X * two e')).
  { destruct (located_bounds _ _ Loc) as [L U]. rewrite shr_m_of_loc in L, U.
    destruct q as [|p|p]; [| |lia].
    - (* the quotient is below one at this exponent *)
      assert (Hlt : (m' < Zpos my)%Z) by lia.
      destruct (Z.log2_spec (Zpos mx) eq_refl) as [Lx _].
      destruct (Z.log2_spec (Zpos my) eq_refl) as [_ Uy].
      pose proof (Z.log2_nonneg (Zpos mx)). pose proof (Z.log2_nonneg (Zpos my)).
      fold lx in Lx. fold ly in Uy.
      assert (Hd : (lx + s <= ly)%Z).
      { assert (2 ^ (lx + s) < 2 ^ (Z.succ ly))%Z.
        { rewrite Z.pow_add_r by lia. nia. }
        apply Z.pow_lt_mono_r_iff in H1; lia. }
      assert (He : (e' <= -1074)%Z) by (clear - Hd Hs; unfold s, e' in *; lia).
      assert (ilog2 (X * two e') < e')%Z.
      { apply ilog2_upper; [apply Qmult_lt_0_compat; [exact HX|apply two_pos]|].
        rewrite <- (Qmult_1_l (two e')) at 2.
        apply Qmult_lt_compat_r; [apply two_pos|].
        change (inject_Z 0) with 0 in U. lra. }
      rewrite fexpS_eq. cbn [Zdigits2]. unfold fexp, emin. lia.
    - apply fexpS_digits; assumption. }
  rewrite <- (rnd_comp _ _ Ev).
  rewrite rnd_positive by (apply Qmult_lt_0_compat; [exact HX|apply two_pos]).
  rewrite <- Ev in Hub.
  destruct (binary_round_aux_correct q e' (new_location (Zpos my) r) X)
    as (V & N & S); trivial.
  split; [split|]; assumption.
Qed.

Lemma SFcompare_refl (x : spec_float) :
  x <> S754_nan -> SFcompare x x = Some Eq.
Proof.
  destruct x as [[]|[]| |[] m e]; intros N; try congruence; try reflexivity;
    cbn [SFcompare]; rewrite Z.compare_refl;
    change (Pos.compare_cont Eq m m) with (Pos.compare m m);
    now rewrite Pos.compare_refl.
Qed.

Lemma SFleb_not_nan_l (x y : spec_float) : SFleb x y = true -> x <> S754_nan.
Proof. intros L E. subst x. discriminate L. Qed.

Lemma SFleb_not_nan_r (x y : spec_float) : SFleb x y = true -> y <> S754_nan.
Proof. intros L E. subst y. destruct x as [| | |]; discriminate L. Qed.

Lemma SFleb_refl (x : spec_float) : x <> S754_nan -> SFleb x x = true.
Proof. intros N. unfold SFleb. now rewrite SFcompare_refl. Qed.

Lemma SFltb_SFleb (x y : spec_float) : SFltb x y = true -> SFleb x y = true.
Proof. unfold SFltb, SFleb. destruct (SFcompare x y) as [[]|]; congruence. Qed.

Lemma lex_le_trans e1 m1 e2 m2 e3 m3 :
  lex_le e1 m1 e2 m2 -> lex_le e2 m2 e3 m3 -> lex_le e1 m1 e3 m3.
Proof. unfold lex_le. lia. Qed.

Lemma SFleb_finite_pos (m1 m2 : positive) (e1 e2 : Z) :
  SFleb (S754_finite false m1 e1) (S754_finite false m2 e2) = true
  <-> lex_le e1 m1 e2 m2.
Proof.
  unfold SFleb, lex_le. cbn [SFcompare].
  change (Pos.compare_cont Eq m1 m2) with (Pos.compare m1 m2).
  destruct (Z.compare_spec e1 e2) as [E|E|E];
    [destruct (Pos.compare_spec m1 m2) as [C|C|C]| |];
    split; intros H; try reflexivity; try discriminate; try lia.
Qed.

Lemma SFleb_finite_neg (m1 m2 : positive) (e1 e2 : Z) :
  SFleb (S754_finite true m1 e1) (S754_finite true m2 e2) = true
  <-> lex_le e2 m2 e1 m1.
Proof.
  unfold SFleb, lex_le. cbn [SFcompare].
  change (Pos.compare_cont Eq m1 m2) with (Pos.compare m1 m2).
  destruct (Z.compare_spec e1 e2) as [E|E|E];
    [destruct (Pos.compare_spec m1 m2) as [C|C|C]| |];
    cbn [CompOpp]; split; intros H; try reflexivity; try discriminate; try lia.
Qed.

Lemma SFleb_trans (x y z : spec_float) :
  SFleb x y = true -> SFleb y z = true -> SFleb x z = true.
Proof.
  destruct x as [[]|[]| |[] mx ex], y as [[]|[]| |[] my ey],
           z as [[]|[]| |[] mz ez];
    intros H1 H2; try reflexivity; try discriminate H1; try discriminate H2.
  - apply SFleb_finite_neg. apply SFleb_finite_neg in H1, H2.
    eapply lex_le_trans; eassumption.
  - apply SFleb_finite_pos. apply SFleb_finite_pos in H1, H2.
    eapply lex_le_trans; eassumption.
Qed.

Lemma SF_between (x c : spec_float) :
  SFleb (S754_zero false) x = true -> SFleb x c = true ->
  nonneg_finite c -> nonneg_finite x.
Proof.
  destruct x as [[]|[]| |[] mx ex], c as [[]|[]| |[] mc ec];
    intros H1 H2 N; try exact I; try destruct N; try discriminate H1;
    try discriminate H2.
Qed.

Lemma SF_positive (x w : spec_float) :
  SFltb (S754_zero false) x = true -> SFltb x w = true ->
  (exists m e, x = S754_finite false m e)
  /\ (w = S754_infinity false \/ exists m e, w = S754_finite false m e).
Proof.
  destruct x as [[]|[]| |[] mx ex], w as [[]|[]| |[] mw ew];
    intros H1 H2; try discriminate H1; try discriminate H2;
    (split; [eauto|eauto]).
Qed.

Lemma NV_between (f c : float) :
  (Binary64.of_int 0 <=? f)%float = true -> (f <=? c)%float = true ->
  NV c -> NV f.
Proof.
  rewrite !FloatAxioms.leb_spec. intros H1 H2 [_ Nc].
  split; [apply Prim2SF_valid|]. eapply SF_between; eauto.
Qed.

Lemma leb_FV (f g : float) :
  NV f -> NV g -> ((f <=? g)%float = true <-> FV f <= FV g).
Proof. intros Hf Hg. rewrite FloatAxioms.leb_spec. now apply SFleb_nonneg. Qed.

Lemma ltb_FV (f g : float) :
  NV f -> NV g -> ((f <? g)%float = true <-> FV f < FV g).
Proof. intros Hf Hg. rewrite FloatAxioms.ltb_spec. now apply SFltb_nonneg. Qed.

Lemma NV_zero : NV (Binary64.of_int 0).
Proof. split; [reflexivity|exact I]. Qed.

Lemma NV_one : NV (Binary64.of_int 1).
Proof. split; [reflexivity|exact I]. Qed.

Lemma NV_fifty : NV (Binary64.of_int 50).
Proof. split; [reflexivity|exact I]. Qed.

Lemma FV_zero : FV (Binary64.of_int 0) == 0.
Proof. reflexivity. Qed.

Lemma FV_one : FV (Binary64.of_int 1) == 1.
Proof. reflexivity. Qed.

Lemma FV_fifty : FV (Binary64.of_int 50) == 50.
Proof. reflexivity. Qed.

Lemma two_1023_large : 100 <= two 1023.
Proof. apply Qle_trans with (two 7); [discriminate|apply two_le; lia]. Qed.

Lemma sub_sound (f g : float) :
  NV f -> NV g -> FV g <= FV f -> FV f <= 100 ->
  NV (f - g) /\ FV (f - g) == rnd (FV f - FV g).
Proof.
  intros Hf Hg L U. unfold NV, FV. rewrite FloatAxioms.sub_spec.
  apply SFsub_correct; trivial.
  apply Qle_trans with 100; [exact U|apply two_1023_large].
Qed.

Lemma add_sound (f g : float) :
  NV f -> NV g -> FV f + FV g <= 100 ->
  NV (f + g) /\ FV (f + g) == rnd (FV f + FV g).
Proof.
  intros Hf Hg U. unfold NV, FV. rewrite FloatAxioms.add_spec.
  apply SFadd_correct; trivial.
  apply Qle_trans with 100; [exact U|apply two_1023_large].
Qed.

Lemma mul_fifty_sound (f : float) :
  NV f -> FV f <= 1 ->
  NV (f * Binary64.of_int 50)
  /\ FV (f * Binary64.of_int 50) == rnd (FV f * 50).
Proof.
  intros Hf U. unfold NV, FV in *. rewrite FloatAxioms.mul_spec.
  change (Prim2SF (Binary64.of_int 50))
    with (S754_finite false 7036874417766400 (-47)).
  assert (E50 : SFval (S754_finite false 7036874417766400 (-47)) == 50) by reflexivity.
  destruct Hf as [Vf Nf].
  destruct (Prim2SF f) as [sx|sx| |[] mx ex]; try (exfalso; exact Nf).
  - unfold SF64mul. cbn [SFmul]. split; [apply nonneg_valid_zero|].
    rewrite rnd_zero; [reflexivity|]. cbn [SFval]. ring.
  - assert (Ec : SFval (S754_finite false mx ex)
                  * SFval (S754_finite false 7036874417766400 (-47))
                  == SFval (S754_finite false mx ex) * 50)
      by (rewrite E50; reflexivity).
    rewrite <- (rnd_comp _ _ Ec).
    apply SFmul_correct; [lia|].
    rewrite E50. apply Qle_trans with 100; [lra|apply two_1023_large].
Qed.

Lemma int_div_sound (a m : Z) :
  (0 <= a <= m)%Z -> (0 < m)%Z ->
  NV (Binary64.int_div a m)
  /\ FV (Binary64.int_div a m) == rnd (inject_Z a / inject_Z m).
Proof.
  intros Ha Hm. unfold NV, FV, Binary64.int_div.
  destruct m as [|pm|pm]; [lia| |lia].
  destruct a as [|pa|pa]; [| |lia]; cbn [Binary64.Z2SF].
  - unfold SF64div. cbn [SFdiv xorb SF2Prim].
    split; [split; [reflexivity|exact I]|].
    rewrite rnd_zero; [reflexivity|]. unfold Qdiv. apply Qmult_0_l.
  - assert (E : SFval (S754_finite false pa 0) / SFval (S754_finite false pm 0)
                == inject_Z (Zpos pa) / inject_Z (Zpos pm)).
    { cbn [SFval]. change (two 0) with 1. now rewrite !Qmult_1_r. }
    destruct (SFdiv_correct pa pm 0 0) as [[V N] S].
    + rewrite E. apply Qle_trans with 1; [|apply Qle_trans with 100; [discriminate|apply two_1023_large]].
      apply Qle_shift_div_r; [reflexivity|].
      rewrite Qmult_1_l, <- Zle_Qle. lia.
    + rewrite (Prim2SF_SF2Prim _ V). split; [split; assumption|].
      rewrite S. now apply rnd_comp.
Qed.

Lemma fdiv_sound (d w : float) :
  (Binary64.of_int 0 <? d)%float = true -> (d <? w)%float = true ->
  NV d /\ 0 < FV d /\ NV (d / w)
  /\ ((Prim2SF w = S754_infinity false /\ FV (d / w) == 0)
      \/ (NV w /\ FV d < FV w /\ FV (d / w) == rnd (FV d / FV w))).
Proof.
  intros H0 Hw.
  pose proof (Prim2SF_valid d) as Vd. pose proof (Prim2SF_valid w) as Vw.
  pose proof Hw as Hw'.
  rewrite FloatAxioms.ltb_spec in H0, Hw.
  change (Prim2SF (Binary64.of_int 0)) with (S754_zero false) in H0.
  destruct (SF_positive _ _ H0 Hw) as [(md & ed & Ed) [Ew|(mw & ew & Ew)]].
  - assert (Nd : NV d) by (unfold NV; rewrite Ed in *; split; [exact Vd|exact I]).
    split; [exact Nd|]. split; [unfold FV; rewrite Ed; apply SFval_pos|].
    unfold NV, FV. rewrite FloatAxioms.div_spec, Ed, Ew.
    unfold SF64div. cbn [SFdiv xorb].
    split; [apply nonneg_valid_zero|]. left. split; reflexivity.
  - assert (Nd : NV d) by (unfold NV; rewrite Ed in *; split; [exact Vd|exact I]).
    assert (Nw : NV w) by (unfold NV; rewrite Ew in *; split; [exact Vw|exact I]).
    split; [exact Nd|]. split; [unfold FV; rewrite Ed; apply SFval_pos|].
    pose proof (proj1 (ltb_FV d w Nd Nw) Hw') as Lt.
    unfold NV, FV in *. rewrite FloatAxioms.div_spec, Ed, Ew in *.
    destruct (SFdiv_correct md mw ed ew) as [N S].
    + apply Qle_trans with 1; [|apply Qle_trans with 100; [discriminate|apply two_1023_large]].
      apply Qle_shift_div_r; [apply SFval_pos|]. lra.
    + split; [exact N|]. right. split; [exact Nw|]. split; [exact Lt|exact S].
Qed.

Lemma two_m53_fix : rnd (two (-53)) == two (-53).
Proof. vm_compute. reflexivity. Qed.

Lemma below_one_fix : rnd (1 - two (-53)) == 1 - two (-53).
Proof. vm_compute. reflexivity. Qed.

Lemma NV_fix_pos (f : float) : NV f -> 0 < FV f -> rnd_pos (FV f) == FV f.
Proof.
  intros N P. rewrite <- (rnd_positive _ P). now apply nonneg_valid_fix.
Qed.

Ltac fv_bounds :=
  repeat match goal with
         | H : (_ <=? _)%float = true |- _ =>
             apply leb_FV in H; [|assumption|assumption]
         | H : (_ <? _)%float = true |- _ =>
             apply ltb_FV in H; [|assumption|assumption]
         end.

Lemma rounding_laws : PyFloatRounding float.
Proof.
  pose proof NV_zero as N0. pose proof NV_one as N1. pose proof NV_fifty as N50.
  pose proof FV_zero as V0. pose proof FV_one as V1. pose proof FV_fifty as V50.
  pose proof two_m53 as C.
  split; cbn [fltb fleb feqb of_int fadd fsub fmul fdiv int_div binary64].
  - intros a b c. rewrite !FloatAxioms.leb_spec. apply SFleb_trans.
  - intros a b. rewrite !FloatAxioms.leb_spec. intros L.
    eapply SFleb_refl, SFleb_not_nan_l, L.
  - intros a b. rewrite !FloatAxioms.leb_spec. intros L.
    eapply SFleb_refl, SFleb_not_nan_r, L.
  - intros a b. rewrite FloatAxioms.ltb_spec, FloatAxioms.leb_spec.
    apply SFltb_SFleb.
  - reflexivity.
  - reflexivity.
  - reflexivity.
  - reflexivity.
  - reflexivity.
  - reflexivity.
  - reflexivity.
  - (* fsub_one_antitone *)
    intros a b La Lab Lb.
    assert (Nb : NV b).
    { apply (NV_between b (Binary64.of_int 1)); trivial.
      rewrite FloatAxioms.leb_spec in *. eapply SFleb_trans; eassumption. }
    assert (Na : NV a) by (apply (NV_between a b); trivial).
    fv_bounds.
    destruct (sub_sound (Binary64.of_int 1) a) as [Ns Es]; trivial; try lra.
    destruct (sub_sound (Binary64.of_int 1) b) as [Ns' Es']; trivial; try lra.
    apply leb_FV; trivial. rewrite Es, Es'. apply rnd_monotone. lra.
  - (* fmul_fifty_monotone *)
    intros a b La Lab Lb.
    assert (Nb : NV b).
    { apply (NV_between b (Binary64.of_int 1)); trivial.
      rewrite FloatAxioms.leb_spec in *. eapply SFleb_trans; eassumption. }
    assert (Na : NV a) by (apply (NV_between a b); trivial).
    fv_bounds.
    destruct (mul_fifty_sound a) as [Ns Es]; trivial; try lra.
    destruct (mul_fifty_sound b) as [Ns' Es']; trivial; try lra.
    apply leb_FV; trivial. rewrite Es, Es'. apply rnd_monotone. lra.
  - (* fadd_monotone_l *)
    intros a b c La Lab Lb Lc Lc'.
    assert (Nb : NV b).
    { apply (NV_between b (Binary64.of_int 50)); trivial.
      rewrite FloatAxioms.leb_spec in *.
      apply (SFleb_trans _ (Prim2SF a)); assumption. }
    assert (Na : NV a) by (apply (NV_between a b); trivial).
    assert (Nc : NV c) by (apply (NV_between c (Binary64.of_int 50)); trivial).
    fv_bounds.
    destruct (add_sound a c) as [Ns Es]; trivial; try lra.
    destruct (add_sound b c) as [Ns' Es']; trivial; try lra.
    apply leb_FV; trivial. rewrite Es, Es'. apply rnd_monotone. lra.
  - (* fadd_monotone_r *)
    intros a c d La La' Lc Lcd Ld.
    assert (Na : NV a) by (apply (NV_between a (Binary64.of_int 50)); trivial).
    assert (Nd : NV d).
    { apply (NV_between d (Binary64.of_int 50)); trivial.
      rewrite FloatAxioms.leb_spec in *.
      apply (SFleb_trans _ (Prim2SF c)); assumption. }
    assert (Nc : NV c) by (apply (NV_between c d); trivial).
    fv_bounds.
    destruct (add_sound a c) as [Ns Es]; trivial; try lra.
    destruct (add_sound a d) as [Ns' Es']; trivial; try lra.
    apply leb_FV; trivial. rewrite Es, Es'. apply rnd_monotone. lra.
  - (* int_div_monotone *)
    intros a b m Hab Hbm Hm.
    destruct (int_div_sound a m) as [Ns Es]; try lia.
    destruct (int_div_sound b m) as [Ns' Es']; try lia.
    apply leb_FV; trivial. rewrite Es, Es'. apply rnd_monotone.
    apply ExactFacts.div_monotone; [apply ExactFacts.inject_Z_pos; lia|].
    rewrite <- Zle_Qle. lia.
  - (* fdiv_monotone *)
    intros a b w La Lab Lbw.
    assert (Law : (a <? w)%float = true).
    { rewrite FloatAxioms.ltb_spec, FloatAxioms.leb_spec in *.
      clear - Lab Lbw. unfold SFltb, SFleb in *.
      destruct (Prim2SF a) as [[]|[]| |[] ma ea], (Prim2SF b) as [[]|[]| |[] mb eb],
               (Prim2SF w) as [[]|[]| |[] mw ew];
        try reflexivity; try discriminate Lab; try discriminate Lbw;
        cbn [SFcompare] in *;
        change (Pos.compare_cont Eq) with Pos.compare in *;
        repeat match goal with
               | H : context [Z.compare ?x ?y] |- _ =>
                   destruct (Z.compare_spec x y)
               | |- context [Z.compare ?x ?y] =>
                   destruct (Z.compare_spec x y)
               | H : context [Pos.compare ?x ?y] |- _ =>
                   destruct (Pos.compare_spec x y)
               | |- context [Pos.compare ?x ?y] =>
                   destruct (Pos.compare_spec x y)
               end; cbn [CompOpp] in *; try reflexivity; try discriminate; lia. }
    assert (Lb : (Binary64.of_int 0 <? b)%float = true).
    { rewrite FloatAxioms.ltb_spec, FloatAxioms.leb_spec in *.
      change (Prim2SF (Binary64.of_int 0)) with (S754_zero false) in *.
      clear - La Lab. unfold SFltb, SFleb in *.
      destruct (Prim2SF a) as [[]|[]| |[] ma ea], (Prim2SF b) as [[]|[]| |[] mb eb];
        try reflexivity; try discriminate La; try discriminate Lab. }
    destruct (fdiv_sound a w La Law) as (Na & Pa & Nq & Ca).
    destruct (fdiv_sound b w Lb Lbw) as (Nb & Pb & Nq' & Cb).
    apply leb_FV; trivial. apply leb_FV in Lab; trivial.
    destruct Ca as [[Ei Ea]|(Nw & La' & Ea)], Cb as [[Ei' Eb]|(Nw' & Lb' & Eb)].
    + rewrite Ea, Eb. apply Qle_refl.
    + exfalso. destruct Nw' as [_ F]. rewrite Ei in F. exact F.
    + exfalso. destruct Nw as [_ F]. rewrite Ei' in F. exact F.
    + rewrite Ea, Eb. apply rnd_monotone. apply ExactFacts.div_monotone; lra.
  - (* int_div_nonneg *)
    intros a m Ha Hm. destruct (int_div_sound a m) as [Ns Es]; try lia.
    apply leb_FV; trivial. rewrite V0. now apply nonneg_valid_val.
  - (* int_div_le_one *)
    intros a m Ha Hm. destruct (int_div_sound a m) as [Ns Es]; try lia.
    apply leb_FV; trivial. rewrite Es.
    apply Qle_trans with (rnd (FV (Binary64.of_int 1)));
      [|rewrite (nonneg_valid_fix _ N1); apply Qle_refl].
    apply rnd_monotone. rewrite V1.
    apply Qle_shift_div_r; [apply ExactFacts.inject_Z_pos; lia|].
    rewrite Qmult_1_l, <- Zle_Qle. lia.
  - (* fdiv_nonneg *)
    intros d w D1 D2. destruct (fdiv_sound d w D1 D2) as (Nd & Pd & Nq & _).
    apply leb_FV; trivial. rewrite V0. now apply nonneg_valid_val.
  - (* fdiv_lt_one *)
    intros d w D1 D2. destruct (fdiv_sound d w D1 D2) as (Nd & Pd & Nq & Cq).
    apply ltb_FV; trivial. rewrite V1.
    destruct Cq as [[_ E]|(Nw & Lt & E)]; [rewrite E; reflexivity|].
    assert (G : FV d <= (1 - two (-53)) * FV w).
    { apply fix_gap; trivial; apply NV_fix_pos; trivial. lra. }
    assert (Q : FV d / FV w <= 1 - two (-53)) by (apply Qle_shift_div_r; [lra|exact G]).
    apply rnd_monotone in Q. rewrite below_one_fix in Q. rewrite E. lra.
  - (* fsub_one_pos *)
    intros q L0 L1.
    assert (Nq : NV q).
    { apply (NV_between q (Binary64.of_int 1)); trivial.
      rewrite FloatAxioms.ltb_spec, FloatAxioms.leb_spec in *.
      now apply SFltb_SFleb. }
    fv_bounds.
    destruct (sub_sound (Binary64.of_int 1) q) as [Ns Es]; trivial; try lra.
    apply ltb_FV; trivial. rewrite Es, V0.
    assert (G : two (-53) <= FV (Binary64.of_int 1) - FV q).
    { destruct (Qlt_le_dec 0 (FV q)) as [P|N]; [|lra].
      assert (P1 : 0 < FV (Binary64.of_int 1)) by lra.
      pose proof (fix_gap (FV q) (FV (Binary64.of_int 1)) P L1
                    (NV_fix_pos _ Nq P) (NV_fix_pos _ N1 P1)) as G.
      rewrite V1 in G |- *. lra. }
    apply rnd_monotone in G. rewrite two_m53_fix in G. lra.
  - (* fmul_fifty_pos *)
    intros p L0 L1.
    assert (Np : NV p).
    { apply (NV_between p (Binary64.of_int 1)); trivial.
      rewrite FloatAxioms.ltb_spec, FloatAxioms.leb_spec in *.
      now apply SFltb_SFleb. }
    fv_bounds.
    destruct (mul_fifty_sound p) as [Ns Es]; trivial; try lra.
    apply ltb_FV; trivial. rewrite Es, V0.
    apply Qlt_le_trans with (FV p); [lra|].
    apply Qle_trans with (rnd (FV p));
      [rewrite (nonneg_valid_fix _ Np); apply Qle_refl|].
    apply rnd_monotone. lra.
  - (* fadd_pos *)
    intros a b La La' Lb Lb'.
    assert (Na : NV a) by (apply (NV_between a (Binary64.of_int 50)); trivial).
    assert (Nb : NV b).
    { apply (NV_between b (Binary64.of_int 50)); trivial.
      rewrite FloatAxioms.ltb_spec, FloatAxioms.leb_spec in *.
      now apply SFltb_SFleb. }
    fv_bounds.
    destruct (add_sound a b) as [Ns Es]; trivial; try lra.
    apply ltb_FV; trivial. rewrite Es, V0.
    apply Qlt_le_trans with (FV b); [lra|].
    apply Qle_trans with (rnd (FV b));
      [rewrite (nonneg_valid_fix _ Nb); apply Qle_refl|].
    apply rnd_monotone. lra.
Qed.

End Binary64Facts.

#[export] Instance binary64_rounding : PyFloatRounding float :=
  Binary64Facts.rounding_laws.

(** * The claims *)

Section Claims.

Context {F : Type} `{PyFloat F}.

(** C5: an entry sample and an exit sample that both have byte count 0 and
    whose delay satisfies 0 < delay < W make [find_correlations] raise
    ZeroDivisionError (the division by max(0, 0) = 0) instead of returning
    a result. *)
Theorem C5_zero_bytes_raise (es xs : list (TrafficFlow F)) (W : F)
    (e x : TrafficFlow F) :
  In e es -> In x xs ->
  bytes e = 0%Z -> bytes x = 0%Z ->
  fltb fzero (fsub (timestamp x) (timestamp e)) = true ->
  fltb (fsub (timestamp x) (timestamp e)) W = true ->
  Z.max (bytes e) (bytes x) = 0%Z /\
  find_correlations es xs W = Raise ZeroDivisionError.
Proof.
  intros He Hx Be Bx D1 D2.
  assert (Hm : max_bytes e x = 0%Z) by (unfold max_bytes; lia).
  split; [exact Hm|].
  rewrite find_correlations_collect.
  apply (collect_In_raise W _ (e, x) ZeroDivisionError).
  - apply qualifying_pairs_In. repeat split; trivial.
    unfold qualifies, byte_diff, delay_of. rewrite Be, Bx, D1, D2. reflexivity.
  - now apply candidate_zero_max.
Qed.

(** C7: the result list is in iteration order, entries outer and exits
    inner.  The run equals the scan of the cross product filtered by the
    matching predicate; the matches of earlier entry samples come before
    those of later ones, and the matches of one entry sample come in the
    order of the exit samples. *)
Theorem C7_iteration_order (es xs : list (TrafficFlow F)) (W : F) :
  find_correlations es xs W = cross_product_scan es xs W
  /\ (forall es' ms,
        find_correlations (es ++ es') xs W = Ok ms ->
        exists ms1 ms2,
          find_correlations es xs W = Ok ms1
          /\ find_correlations es' xs W = Ok ms2 /\ ms = ms1 ++ ms2)
  /\ (forall e xs' ms,
        find_correlations [e] (xs ++ xs') W = Ok ms ->
        exists ms1 ms2,
          find_correlations [e] xs W = Ok ms1
          /\ find_correlations [e] xs' W = Ok ms2 /\ ms = ms1 ++ ms2).
Proof.
  split; [apply find_correlations_collect|split].
  - intros es' ms. rewrite !find_correlations_collect.
    rewrite qualifying_pairs_app, collect_app.
    destruct (collect W (qualifying_pairs W es xs)) as [ms1|]; [|discriminate].
    destruct (collect W (qualifying_pairs W es' xs)) as [ms2|]; [|discriminate].
    cbn [bind]. intros E. exists ms1, ms2. repeat split. congruence.
  - intros e xs' ms. rewrite !find_correlations_collect.
    rewrite qualifying_pairs_single_app, collect_app.
    destruct (collect W (qualifying_pairs W [e] xs)) as [ms1|]; [|discriminate].
    destruct (collect W (qualifying_pairs W [e] xs')) as [ms2|]; [|discriminate].
    cbn [bind]. intros E. exists ms1, ms2. repeat split. congruence.
Qed.

Context `{!PyFloatOrder F}.

(** C1 (amended): for an entry sample e and an exit sample x whose larger
    byte count is not zero, [find_correlations] produces a candidate link
    for the pair if and only if byte_diff < 100 and 0 < delay < W.  Whatever
    the byte counts, a pair with delay <= 0, with delay >= W or with
    byte_diff >= 100 produces no link.  On whole sequences, a run that
    returns yields one link per pair of the cross product that satisfies
    the predicate, in scan order, and nothing else. *)
Theorem C1_link_iff_predicate (W : F) (e x : TrafficFlow F) :
  (max_bytes e x <> 0%Z ->
   ((exists l, find_correlations [e] [x] W = Ok [l]) <->
    ((byte_diff e x < 100)%Z
     /\ fltb fzero (delay_of e x) = true /\ fltb (delay_of e x) W = true)))
  /\ (fleb (delay_of e x) fzero = true \/ fleb W (delay_of e x) = true
      \/ (100 <= byte_diff e x)%Z ->
      find_correlations [e] [x] W = Ok [])
  /\ (forall es xs ms,
        find_correlations es xs W = Ok ms ->
        ms = map (fun p => link W (fst p) (snd p))
                 (filter (fun p => (byte_diff (fst p) (snd p) <? 100)%Z
                                   && (fltb fzero (delay_of (fst p) (snd p))
                                       && fltb (delay_of (fst p) (snd p)) W))
                         (list_prod es xs))).
Proof.
  split; [|split].
  - intros Hm. rewrite (find_correlations_pair W e x Hm), <- qualifies_iff.
    destruct (qualifies W e x); split.
    + reflexivity.
    + intros _. now exists (link W e x).
    + intros [l E]. discriminate.
    + discriminate.
  - intros Hno. apply find_correlations_pair_unqualified.
    apply not_true_is_false. rewrite qualifies_iff. intros (B & D1 & D2).
    destruct Hno as [L|[L|L]].
    + apply fle_not_flt in L. congruence.
    + apply fle_not_flt in L. congruence.
    + lia.
  - intros es xs ms E. exact (find_correlations_Ok_links es xs W ms E).
Qed.

(** C2: when [find_correlations] returns, the i-th match belongs to the
    i-th qualifying pair (e, x) of the scan; its confidence is
    (1 - byte_diff / max(e.bytes, x.bytes)) * 50 + (1 - delay / W) * 50 and
    its delay field is x.timestamp - e.timestamp. *)
Theorem C2_confidence_formula (es xs : list (TrafficFlow F)) (W : F)
    (ms : list (Match F)) :
  find_correlations es xs W = Ok ms ->
  Forall2
    (fun m p =>
       let e := fst p in
       let x := snd p in
       confidence m =
         fadd (fmul (fsub fone (int_div (Z.abs (bytes e - bytes x))
                                        (Z.max (bytes e) (bytes x))))
                    ffifty)
              (fmul (fsub fone (fdiv (fsub (timestamp x) (timestamp e)) W))
                    ffifty)
       /\ delay m = fsub (timestamp x) (timestamp e))
    ms (qualifying_pairs W es xs).
Proof.
  intros E. rewrite (find_correlations_Ok_links es xs W ms E).
  induction (qualifying_pairs W es xs) as [|p ps IH]; constructor; auto.
Qed.

(** C8 (amended): an empty entry sequence or an empty exit sequence gives
    the empty result list without an error.  For sequences of any two
    lengths the run returns as long as no qualifying pair has a zero
    maximum byte count; the only error a run raises is ZeroDivisionError,
    and it comes from such a pair, never from the lengths. *)
Theorem C8_empty_and_mismatched (es xs : list (TrafficFlow F)) (W : F) :
  find_correlations [] xs W = Ok []
  /\ find_correlations es [] W = Ok []
  /\ ((forall e x, In e es -> In x xs -> qualifies W e x = true ->
                   Z.max (bytes e) (bytes x) <> 0%Z) ->
      exists ms, find_correlations es xs W = Ok ms)
  /\ (forall ex, find_correlations es xs W = Raise ex ->
        ex = ZeroDivisionError
        /\ exists e x, In e es /\ In x xs /\ qualifies W e x = true
                       /\ Z.max (bytes e) (bytes x) = 0%Z).
Proof.
  split; [reflexivity|split; [|split]].
  - rewrite find_correlations_collect. unfold qualifying_pairs.
    replace (list_prod es []) with (@nil (TrafficFlow F * TrafficFlow F));
      [reflexivity|].
    induction es; simpl; auto.
  - intros Hnz. eexists. now apply find_correlations_links.
  - apply find_correlations_raise_inv.
Qed.

(** C10: when [find_correlations] returns, the 'bytes' field of every match
    is the byte count of the entry sample of its pair. *)
Theorem C10_bytes_is_entry_bytes (es xs : list (TrafficFlow F)) (W : F)
    (ms : list (Match F)) :
  find_correlations es xs W = Ok ms ->
  map match_bytes ms =
  map (fun p => bytes (fst p)) (qualifying_pairs W es xs).
Proof.
  intros E. rewrite (find_correlations_Ok_links es xs W ms E), map_map.
  reflexivity.
Qed.

Context `{!PyFloatRounding F}.

(** C4: over samples with non-negative byte counts in which no qualifying
    pair has two zero byte counts, [find_correlations] returns and every
    candidate link has 0 < confidence <= 100. *)
Theorem C4_confidence_range (es xs : list (TrafficFlow F)) (W : F) :
  (forall e, In e es -> (0 <= bytes e)%Z) ->
  (forall x, In x xs -> (0 <= bytes x)%Z) ->
  (forall e x, In e es -> In x xs -> qualifies W e x = true ->
               ~ (bytes e = 0%Z /\ bytes x = 0%Z)) ->
  exists ms,
    find_correlations es xs W = Ok ms
    /\ Forall (fun m => fltb (of_int 0) (confidence m) = true
                        /\ fleb (confidence m) (of_int 100) = true) ms.
Proof.
  intros Hes Hxs Hnz.
  assert (Hmax : forall e x, In e es -> In x xs -> qualifies W e x = true ->
                             max_bytes e x <> 0%Z).
  { intros e x He Hx Q Hm. apply (Hnz e x He Hx Q).
    specialize (Hes e He). specialize (Hxs x Hx). unfold max_bytes in Hm. lia. }
  eexists. split; [apply (find_correlations_links es xs W Hmax)|].
  apply Forall_map, Forall_forall. intros [e x] Hin.
  apply qualifying_pairs_In in Hin as (He & Hx & Q).
  cbn [fst snd confidence link].
  apply score_bounds; auto.
Qed.

(** C6 (amended): over samples with non-negative byte counts, for two
    qualifying pairs with the same maximum byte count (and the same W), the
    confidence does not increase when byte_diff increases and the delay is
    the same, and does not increase when the delay increases and byte_diff
    is the same. *)
Theorem C6_confidence_monotone (W : F) (e1 x1 e2 x2 : TrafficFlow F)
    (l1 l2 : Match F) :
  (0 <= bytes e1)%Z -> (0 <= bytes x1)%Z ->
  (0 <= bytes e2)%Z -> (0 <= bytes x2)%Z ->
  find_correlations [e1] [x1] W = Ok [l1] ->
  find_correlations [e2] [x2] W = Ok [l2] ->
  Z.max (bytes e1) (bytes x1) = Z.max (bytes e2) (bytes x2) ->
  (delay l1 = delay l2 ->
   (byte_diff e1 x1 <= byte_diff e2 x2)%Z ->
   fleb (confidence l2) (confidence l1) = true)
  /\ (byte_diff e1 x1 = byte_diff e2 x2 ->
      fleb (delay l1) (delay l2) = true ->
      fleb (confidence l2) (confidence l1) = true).
Proof.
  intros He1 Hx1 He2 Hx2 E1 E2 Hmax.
  apply find_correlations_pair_inv in E1 as (Q1 & M1 & ->).
  apply find_correlations_pair_inv in E2 as (Q2 & M2 & ->).
  fold (max_bytes e1 x1) (max_bytes e2 x2) in Hmax.
  destruct (nonneg_bytes_diff_max e1 x1 He1 Hx1 M1) as [Hbd1 Hpos1].
  destruct (nonneg_bytes_diff_max e2 x2 He2 Hx2 M2) as [Hbd2 Hpos2].
  apply qualifies_iff in Q1 as (_ & D1 & D1').
  apply qualifies_iff in Q2 as (_ & D2 & D2').
  destruct (byte_score_bounds _ _ Hbd1 Hpos1) as [B1 B1'].
  destruct (byte_score_bounds _ _ Hbd2 Hpos2) as [B2 B2'].
  destruct (timing_score_bounds _ _ D1 D1') as [T1 T1'].
  destruct (timing_score_bounds _ _ D2 D2') as [T2 T2'].
  cbn [confidence delay link]. unfold score, byte_score_of, timing_score_of.
  split.
  - intros Hd Hbd. rewrite Hd, Hmax. rewrite Hmax in B1, B1', Hbd1, Hpos1.
    apply fadd_monotone_l; [exact B2| |exact B1'|now apply flt_fle|exact T2'].
    destruct (sub_one_range (int_div (byte_diff e1 x1) (max_bytes e2 x2)))
      as [S0 S1]; [now apply int_div_nonneg|now apply int_div_le_one|].
    destruct (sub_one_range (int_div (byte_diff e2 x2) (max_bytes e2 x2)))
      as [S0' S1']; [now apply int_div_nonneg|now apply int_div_le_one|].
    apply fmul_fifty_monotone; [exact S0'| |exact S1].
    apply fsub_one_antitone;
      [now apply int_div_nonneg| |now apply int_div_le_one].
    apply int_div_monotone; lia.
  - intros Hbd Hd. rewrite Hbd, Hmax.
    pose proof (fdiv_nonneg _ _ D1 D1') as Q1.
    pose proof (fdiv_lt_one _ _ D1 D1') as Q1'.
    pose proof (fdiv_nonneg _ _ D2 D2') as Q2.
    pose proof (fdiv_lt_one _ _ D2 D2') as Q2'.
    destruct (sub_one_range _ Q1 (flt_fle _ _ Q1')) as [S0 S1].
    destruct (sub_one_range _ Q2 (flt_fle _ _ Q2')) as [S0' S1'].
    apply fadd_monotone_r;
      [exact B2|exact B2'|now apply flt_fle| |exact T1'].
    apply fmul_fifty_monotone; [exact S0'| |exact S1].
    apply fsub_one_antitone; [exact Q1| |now apply flt_fle].
    apply fdiv_monotone; trivial.
Qed.

End Claims.

(** ** The claims on the sample traffic, in binary64 *)

Lemma sample_run :
  find_correlations Sample.entry_traffic Sample.exit_traffic
                    Sample.default_time_window
  = Ok SampleRun.sample_matches.
Proof. vm_compute. reflexivity. Qed.

(** In exact arithmetic the same run gives the delays 3.2 and the
    confidences 68 of the specification. *)
Lemma exact_sample_run :
  find_correlations ExactSample.entry_traffic ExactSample.exit_traffic 5
  = Ok ExactSample.sample_matches
  /\ map (fun m => Qred (confidence m)) ExactSample.sample_matches
     = [68; 68; 68; 68]
  /\ map (fun m => Qred (delay m)) ExactSample.sample_matches
     = [16 # 5; 16 # 5; 16 # 5; 16 # 5].
Proof. repeat split; vm_compute; reflexivity. Qed.

(** C1 as stated fails on a pair of zero-byte samples: the predicate holds
    and the run raises instead of producing a link. *)
Lemma C1_counterexample :
  ((byte_diff SampleZero.idle_entry SampleZero.idle_exit < 100)%Z
   /\ fltb fzero (delay_of SampleZero.idle_entry SampleZero.idle_exit) = true
   /\ fltb (delay_of SampleZero.idle_entry SampleZero.idle_exit)
           Sample.default_time_window = true)
  /\ find_correlations [SampleZero.idle_entry] [SampleZero.idle_exit]
                       Sample.default_time_window
     = Raise ZeroDivisionError
  /\ ~ (exists l,
          find_correlations [SampleZero.idle_entry] [SampleZero.idle_exit]
                            Sample.default_time_window = Ok [l]).
Proof.
  split; [|split].
  - vm_compute. auto.
  - vm_compute. reflexivity.
  - intros [l E]. vm_compute in E. discriminate.
Qed.

Lemma C1_link_iff_predicate_witness :
  (exists l,
     find_correlations [SampleRun.first_entry] [SampleRun.first_exit]
                       Sample.default_time_window = Ok [l])
  /\ find_correlations [SampleRun.first_entry] [SampleRun.second_exit]
                       Sample.default_time_window = Ok []
  /\ find_correlations [SampleRun.first_exit] [SampleRun.first_entry]
                       Sample.default_time_window = Ok [].
Proof.
  destruct (C1_link_iff_predicate Sample.default_time_window
              SampleRun.first_entry SampleRun.first_exit) as (A & _ & _).
  destruct (C1_link_iff_predicate Sample.default_time_window
              SampleRun.first_entry SampleRun.second_exit) as (_ & B & _).
  destruct (C1_link_iff_predicate Sample.default_time_window
              SampleRun.first_exit SampleRun.first_entry) as (_ & C & _).
  split; [|split].
  - apply A.
    + vm_compute. discriminate.
    + vm_compute. auto.
  - apply B. right. right. vm_compute. discriminate.
  - apply C. left. vm_compute. reflexivity.
Defined.

Lemma C2_confidence_formula_witness :
  Forall2
    (fun m p =>
       confidence m =
         ((1 - Binary64.int_div (Z.abs (bytes (fst p) - bytes (snd p)))
                                (Z.max (bytes (fst p)) (bytes (snd p)))) * 50
          + (1 - (timestamp (snd p) - timestamp (fst p)) / 5) * 50)%float
       /\ delay m = (timestamp (snd p) - timestamp (fst p))%float)
    SampleRun.sample_matches
    (combine Sample.entry_traffic Sample.exit_traffic).
Proof.
  exact (C2_confidence_formula Sample.entry_traffic Sample.exit_traffic
           Sample.default_time_window SampleRun.sample_matches sample_run).
Defined.

(** C3 as stated fails: the delays are not 3.2 and the confidences are not
    68.0 in binary64. *)
Lemma C3_counterexample :
  ~ (exists ms,
       find_correlations Sample.entry_traffic Sample.exit_traffic
                         Sample.default_time_window = Ok ms
       /\ List.length ms = 4%nat
       /\ Forall (fun m => delay m = 3.2%float /\ confidence m = 68%float) ms).
Proof.
  intros (ms & E & _ & Hall).
  rewrite sample_run in E. injection E as <-.
  inversion Hall as [|m ms' [_ Hc] _]; subst.
  apply (f_equal (fun f => PrimFloat.eqb f 68%float)) in Hc.
  vm_compute in Hc. discriminate.
Qed.

(** C3 (amended): on the sample sequences with W = 5 the correlator returns
    exactly 4 matches, the i-th entry sample paired with the i-th exit
    sample; every delay is the binary64 difference 3.2000000000000028 and
    every confidence is 67.999999999999972, which lie within 1e-14 of 3.2
    and within 1e-13 of 68.0. *)
Theorem C3_sample_matches :
  find_correlations Sample.entry_traffic Sample.exit_traffic
                    Sample.default_time_window
  = Ok SampleRun.sample_matches
  /\ List.length SampleRun.sample_matches = 4%nat
  /\ qualifying_pairs Sample.default_time_window
                      Sample.entry_traffic Sample.exit_traffic
     = combine Sample.entry_traffic Sample.exit_traffic
  /\ Forall (fun m =>
               delay m = 3.2000000000000028%float
               /\ confidence m = 67.999999999999972%float
               /\ PrimFloat.ltb (abs (delay m - 3.2)) 1e-14 = true
               /\ PrimFloat.ltb (abs (confidence m - 68)) 1e-13 = true)
            SampleRun.sample_matches.
Proof.
  split; [exact sample_run|].
  split; [reflexivity|].
  split; [vm_compute; reflexivity|].
  repeat constructor.
Qed.

Lemma C4_confidence_range_witness :
  Forall (fun m => PrimFloat.ltb 0 (confidence m) = true
                   /\ PrimFloat.leb (confidence m) 100 = true)
         SampleRun.sample_matches.
Proof.
  destruct (C4_confidence_range Sample.entry_traffic Sample.exit_traffic
              Sample.default_time_window) as (ms & E & R).
  - intros e He. simpl in He.
    destruct He as [<-|[<-|[<-|[<-|[]]]]]; vm_compute; discriminate.
  - intros x Hx. simpl in Hx.
    destruct Hx as [<-|[<-|[<-|[<-|[]]]]]; vm_compute; discriminate.
  - intros e x He Hx _ [Be _]. simpl in He.
    destruct He as [<-|[<-|[<-|[<-|[]]]]]; vm_compute in Be; discriminate.
  - rewrite sample_run in E. injection E as <-. exact R.
Defined.

Lemma C5_zero_bytes_raise_witness :
  Z.max 0 0 = 0%Z /\
  find_correlations (Sample.entry_traffic ++ [SampleZero.idle_entry])
                    (SampleZero.idle_exit :: Sample.exit_traffic) 5%float
  = Raise ZeroDivisionError.
Proof.
  apply (C5_zero_bytes_raise
           (Sample.entry_traffic ++ [SampleZero.idle_entry])
           (SampleZero.idle_exit :: Sample.exit_traffic) 5%float
           SampleZero.idle_entry SampleZero.idle_exit).
  - simpl. tauto.
  - simpl. tauto.
  - reflexivity.
  - reflexivity.
  - vm_compute. reflexivity.
  - vm_compute. reflexivity.
Defined.

(** C6 as stated fails in its second part: with byte_diff held at 50 and a
    larger delay the confidence is larger, because the maximum byte count
    changed from 50 to 1000. *)
Lemma C6_counterexample :
  find_correlations [SampleMax.small_entry] [SampleMax.small_exit] 5%float
  = Ok [mkMatch "relay_guard_1" "relay_exit_7" 40%float 1%float 50]
  /\ find_correlations [SampleMax.large_entry] [SampleMax.large_exit] 5%float
     = Ok [mkMatch "relay_guard_1" "relay_exit_7" 77.5%float 2%float 1000]
  /\ byte_diff SampleMax.small_entry SampleMax.small_exit
     = byte_diff SampleMax.large_entry SampleMax.large_exit
  /\ PrimFloat.ltb 1 2 = true
  /\ PrimFloat.ltb 40 77.5 = true.
Proof. repeat split; vm_compute; reflexivity. Qed.

Lemma C6_confidence_monotone_witness :
  PrimFloat.leb
    (confidence (link Sample.default_time_window
                      SampleRun.first_entry SampleRun.low_exit))
    (confidence (link Sample.default_time_window
                      SampleRun.first_entry SampleRun.first_exit))
  = true
  /\ PrimFloat.leb
       (confidence (link Sample.default_time_window
                         SampleRun.first_entry SampleRun.late_exit))
       (confidence (link Sample.default_time_window
                         SampleRun.first_entry SampleRun.first_exit))
     = true.
Proof.
  split.
  - refine (proj1 (C6_confidence_monotone Sample.default_time_window
                     SampleRun.first_entry SampleRun.first_exit
                     SampleRun.first_entry SampleRun.low_exit
                     (link Sample.default_time_window
                           SampleRun.first_entry SampleRun.first_exit)
                     (link Sample.default_time_window
                           SampleRun.first_entry SampleRun.low_exit)
                     _ _ _ _ _ _ _) _ _).
    1-4: vm_compute; discriminate.
    1-5: vm_compute; try reflexivity; discriminate.
  - refine (proj2 (C6_confidence_monotone Sample.default_time_window
                     SampleRun.first_entry SampleRun.first_exit
                     SampleRun.first_entry SampleRun.late_exit
                     (link Sample.default_time_window
                           SampleRun.first_entry SampleRun.first_exit)
                     (link Sample.default_time_window
                           SampleRun.first_entry SampleRun.late_exit)
                     _ _ _ _ _ _ _) _ _).
    1-4: vm_compute; discriminate.
    1-5: vm_compute; try reflexivity; discriminate.
Defined.

(** C8 as stated fails: two sequences of different lengths that hold a
    qualifying pair of zero-byte samples raise ZeroDivisionError. *)
Lemma C8_counterexample :
  List.length [SampleZero.idle_entry]
  <> List.length [SampleZero.idle_exit; SampleRun.first_exit]
  /\ find_correlations [SampleZero.idle_entry]
                       [SampleZero.idle_exit; SampleRun.first_exit]
                       Sample.default_time_window
     = Raise ZeroDivisionError.
Proof. split; [discriminate|vm_compute; reflexivity]. Qed.

Lemma C8_empty_and_mismatched_witness :
  find_correlations [] Sample.exit_traffic Sample.default_time_window = Ok []
  /\ find_correlations Sample.entry_traffic [] Sample.default_time_window = Ok []
  /\ exists ms,
       find_correlations Sample.entry_traffic
                         [SampleRun.first_exit; SampleRun.near_exit]
                         Sample.default_time_window = Ok ms.
Proof.
  destruct (C8_empty_and_mismatched Sample.entry_traffic Sample.exit_traffic
              Sample.default_time_window) as (A & _ & _).
  destruct (C8_empty_and_mismatched Sample.entry_traffic []
              Sample.default_time_window) as (_ & B & _).
  destruct (C8_empty_and_mismatched Sample.entry_traffic
              [SampleRun.first_exit; SampleRun.near_exit]
              Sample.default_time_window) as (_ & _ & C & _).
  split; [exact A|split; [exact B|]].
  apply C. intros e x He Hx _.
  simpl in He, Hx.
  destruct He as [<-|[<-|[<-|[<-|[]]]]], Hx as [<-|[<-|[]]];
    vm_compute; discriminate.
Defined.

(** C9: [extract_nodes] partitions the relay records.  The exit-node list
    holds the node_info of the relays whose flags contain the string 'Exit',
    the entry-node list that of all other relays (those without a 'flags'
    key included), each in input order; a relay occurs in its selection as
    often as in the input and not at all in the other, and the two lengths
    add up to the number of relays. *)
Theorem C9_extract_nodes_partition (rs : list Relays.Relay) :
  let contains_exit := fun r : Relays.Relay =>
    if in_dec string_dec "Exit"%string (Relays.dict_get (Relays.flags r) [])
    then true else false in
  let entries := filter (fun r => negb (contains_exit r)) rs in
  let exits := filter contains_exit rs in
  Relays.extract_nodes (Relays.mkTorData (Some rs))
  = Ok (map Relays.node_info_of entries, map Relays.node_info_of exits)
  /\ (forall r, In r exits <->
                In r rs
                /\ In "Exit"%string (Relays.dict_get (Relays.flags r) []))
  /\ (forall r, In r entries <->
                In r rs
                /\ ~ In "Exit"%string (Relays.dict_get (Relays.flags r) []))
  /\ (forall r, In r rs ->
                (In r entries /\ ~ In r exits) \/ (In r exits /\ ~ In r entries))
  /\ (forall (eq_dec : forall x y : Relays.Relay, {x = y} + {x <> y}) r,
        (In "Exit"%string (Relays.dict_get (Relays.flags r) []) ->
         count_occ eq_dec exits r = count_occ eq_dec rs r
         /\ count_occ eq_dec entries r = 0%nat)
        /\ (~ In "Exit"%string (Relays.dict_get (Relays.flags r) []) ->
            count_occ eq_dec entries r = count_occ eq_dec rs r
            /\ count_occ eq_dec exits r = 0%nat)
        /\ (count_occ eq_dec entries r + count_occ eq_dec exits r
            = count_occ eq_dec rs r)%nat)
  /\ (List.length (map Relays.node_info_of entries)
      + List.length (map Relays.node_info_of exits) = List.length rs)%nat.
Proof.
  intros contains_exit entries exits.
  assert (Hc : forall r, Relays.has_exit_flag r = contains_exit r)
    by exact RelaysFacts.has_exit_flag_in_dec.
  assert (Hin : forall r, contains_exit r = true <->
                          In "Exit"%string
                             (Relays.dict_get (Relays.flags r) [])).
  { intros r. unfold contains_exit.
    destruct (in_dec string_dec "Exit"%string
                     (Relays.dict_get (Relays.flags r) [])); split;
      trivial; try discriminate; tauto. }
  subst entries exits.
  split; [|split; [|split; [|split; [|split]]]].
  - unfold Relays.extract_nodes. cbn [Relays.relays].
    rewrite RelaysFacts.for_relays_filter. cbn [app].
    rewrite (filter_ext _ _ Hc rs).
    rewrite (filter_ext (fun r => negb (Relays.has_exit_flag r))
                        (fun r => negb (contains_exit r))
                        (fun r => f_equal negb (Hc r)) rs).
    reflexivity.
  - intros r. rewrite filter_In, Hin. reflexivity.
  - intros r. rewrite filter_In, negb_true_iff, <- Hin.
    destruct (contains_exit r); intuition congruence.
  - intros r Hr. rewrite !filter_In, negb_true_iff.
    destruct (contains_exit r); [right|left]; intuition congruence.
  - intros eq_dec r.
    destruct (RelaysFacts.filter_split_count contains_exit rs r eq_dec)
      as [E1 E2].
    rewrite E1, E2. rewrite <- Hin.
    destruct (contains_exit r); repeat split; intros; try lia; congruence.
  - rewrite !length_map. apply RelaysFacts.filter_split_length.
Qed.

(** A relay flagged ['Guard', 'Exit'] is an exit node; relays flagged
    ['exit'], without flags or with no key at all are entry nodes. *)
Lemma C9_extract_nodes_partition_witness :
  Relays.extract_nodes
    (Relays.mkTorData
       (Some [Relays.mkRelay (Some ["exit"%string]) (Some "lower"%string)
                             None None;
              Relays.mkRelay (Some ["Guard"%string; "Exit"%string])
                             (Some "both"%string) None
                             (Some ["198.51.100.7"%string]);
              Relays.mkRelay None None None None;
              Relays.mkRelay (Some []) None
                             (Some "0123456789ABCDEF01234567"%string) None]))
  = Ok ([Relays.mkNodeInfo "lower" []; Relays.mkNodeInfo "unknown" [];
         Relays.mkNodeInfo "0123456789ABCDEF" []],
        [Relays.mkNodeInfo "both" ["198.51.100.7"%string]]).
Proof.
  exact (proj1 (C9_extract_nodes_partition
                  [Relays.mkRelay (Some ["exit"%string]) (Some "lower"%string)
                                  None None;
                   Relays.mkRelay (Some ["Guard"%string; "Exit"%string])
                                  (Some "both"%string) None
                                  (Some ["198.51.100.7"%string]);
                   Relays.mkRelay None None None None;
                   Relays.mkRelay (Some []) None
                                  (Some "0123456789ABCDEF01234567"%string)
                                  None])).
Defined.

(** The 'bytes' field is 1000, the entry sample's count, where the exit
    sample has 1099 bytes and the difference is 99. *)
Lemma C10_bytes_is_entry_bytes_witness :
  find_correlations [SampleRun.first_entry] [SampleRun.near_exit]
                    Sample.default_time_window
  = Ok [mkMatch "relay_guard_1" "relay_exit_7"
                63.495905368516802%float 3.2000000000000028%float 1000]
  /\ map match_bytes
         [mkMatch "relay_guard_1" "relay_exit_7"
                  63.495905368516802%float 3.2000000000000028%float 1000]
     = [bytes SampleRun.first_entry]
  /\ bytes SampleRun.first_entry <> bytes SampleRun.near_exit
  /\ bytes SampleRun.first_entry
     <> byte_diff SampleRun.first_entry SampleRun.near_exit.
Proof.
  assert (E : find_correlations [SampleRun.first_entry] [SampleRun.near_exit]
                Sample.default_time_window
              = Ok [mkMatch "relay_guard_1" "relay_exit_7"
                      63.495905368516802%float 3.2000000000000028%float 1000])
    by (vm_compute; reflexivity).
  split; [exact E|].
  split; [exact (C10_bytes_is_entry_bytes _ _ _ _ E)|].
  split; vm_compute; discriminate.
Defined.

(** * Further properties of the code *)

(** ** [extract_nodes] *)

Module RelaysMore.

Import Relays.
Local Open Scope string_scope.

Lemma extract_nodes_filter (rs : list Relay) :
  extract_nodes (mkTorData (Some rs))
  = Ok (map node_info_of (filter (fun r => negb (has_exit_flag r)) rs),
        map node_info_of (filter has_exit_flag rs)).
Proof.
  unfold extract_nodes. cbn [relays].
  now rewrite RelaysFacts.for_relays_filter.
Qed.

Lemma substring_prefix (n : nat) : forall s : string,
  prefix (substring 0 n s) s = true
  /\ String.length (substring 0 n s) = Nat.min n (String.length s).
Proof.
  induction n as [|n IH]; intros s.
  - destruct s; split; reflexivity.
  - destruct s as [|c s]; [split; reflexivity|].
    cbn [substring prefix String.length Nat.min].
    destruct (IH s) as [P L]. rewrite L.
    destruct (Ascii.ascii_dec c c) as [_|N]; [|congruence].
    split; [exact P|reflexivity].
Qed.

End RelaysMore.

(** X2: [extract_nodes] distributes over the concatenation of relay lists:
    the entry (exit) nodes of [rs1 ++ rs2] are the entry (exit) nodes of
    [rs1] followed by those of [rs2]. *)
Theorem extract_nodes_app (rs1 rs2 : list Relays.Relay) :
  Relays.extract_nodes (Relays.mkTorData (Some (rs1 ++ rs2)))
  = (a <- Relays.extract_nodes (Relays.mkTorData (Some rs1)) ;;
     b <- Relays.extract_nodes (Relays.mkTorData (Some rs2)) ;;
     Ok (fst a ++ fst b, snd a ++ snd b)).
Proof.
  rewrite !RelaysMore.extract_nodes_filter. cbn [bind fst snd].
  now rewrite !filter_app, !map_app.
Qed.

(** X3: every node_info that [extract_nodes] returns comes from a relay of
    the input.  Its nickname is the relay's 'nickname' where present,
    unchanged and not truncated; otherwise the first 16 characters of the
    'fingerprint' (a prefix of it, of length min(16, len)); otherwise
    'unknown'.  Its addresses are the relay's 'addresses', or [] where the
    key is absent. *)
Theorem extract_nodes_nickname (rs : list Relays.Relay)
    (entry_nodes exit_nodes : list Relays.NodeInfo) :
  Relays.extract_nodes (Relays.mkTorData (Some rs))
  = Ok (entry_nodes, exit_nodes) ->
  forall n, In n entry_nodes \/ In n exit_nodes ->
  exists r,
    In r rs
    /\ Relays.info_addresses n = Relays.dict_get (Relays.addresses r) []
    /\ match Relays.nickname r, Relays.fingerprint r with
       | Some nick, _ => Relays.info_nickname n = nick
       | None, Some fp =>
           prefix (Relays.info_nickname n) fp = true
           /\ String.length (Relays.info_nickname n)
              = Nat.min 16 (String.length fp)
       | None, None => Relays.info_nickname n = "unknown"%string
       end.
Proof.
  rewrite RelaysMore.extract_nodes_filter. intros E. injection E as <- <-.
  intros n Hn.
  assert (Hr : exists r, In r rs /\ n = Relays.node_info_of r).
  { destruct Hn as [Hn|Hn]; apply in_map_iff in Hn as (r & <- & Hr);
      apply filter_In in Hr as [Hr _]; eauto. }
  destruct Hr as (r & Hr & ->). exists r.
  split; [exact Hr|]. split; [reflexivity|].
  unfold Relays.node_info_of. cbn [Relays.info_nickname].
  destruct (Relays.nickname r) as [nick|]; cbn [Relays.dict_get];
    [reflexivity|].
  destruct (Relays.fingerprint r) as [fp|]; [|reflexivity].
  apply RelaysMore.substring_prefix.
Qed.

Lemma extract_nodes_nickname_witness :
  exists r,
    In r [Relays.mkRelay (Some ["Guard"%string]) None
            (Some "0123456789ABCDEF0123456789ABCDEF01234567"%string) None]
    /\ Relays.info_addresses (Relays.mkNodeInfo "0123456789ABCDEF" [])
       = Relays.dict_get (Relays.addresses r) []
    /\ match Relays.nickname r, Relays.fingerprint r with
       | Some nick, _ => "0123456789ABCDEF"%string = nick
       | None, Some fp =>
           prefix "0123456789ABCDEF" fp = true
           /\ String.length "0123456789ABCDEF"
              = Nat.min 16 (String.length fp)
       | None, None => "0123456789ABCDEF"%string = "unknown"%string
       end.
Proof.
  refine (extract_nodes_nickname
            [Relays.mkRelay (Some ["Guard"%string]) None
               (Some "0123456789ABCDEF0123456789ABCDEF01234567"%string) None]
            [Relays.mkNodeInfo "0123456789ABCDEF" []] [] _
            (Relays.mkNodeInfo "0123456789ABCDEF" []) _).
  - vm_compute. reflexivity.
  - left. left. reflexivity.
Defined.

(** X4: the test for an exit relay is membership of the exact string 'Exit'
    in the 'flags' list.  A relay of the input with that flag has its
    node_info in the exit list; a relay without it, and in particular a
    relay without a 'flags' key or without a 'Guard' flag, has its
    node_info in the entry list. *)
Theorem extract_nodes_exit_flag (rs : list Relays.Relay)
    (entry_nodes exit_nodes : list Relays.NodeInfo) (r : Relays.Relay) :
  Relays.extract_nodes (Relays.mkTorData (Some rs))
  = Ok (entry_nodes, exit_nodes) ->
  In r rs ->
  (In "Exit"%string (Relays.dict_get (Relays.flags r) []) ->
   In (Relays.node_info_of r) exit_nodes)
  /\ (~ In "Exit"%string (Relays.dict_get (Relays.flags r) []) ->
      In (Relays.node_info_of r) entry_nodes)
  /\ (Relays.flags r = None -> In (Relays.node_info_of r) entry_nodes).
Proof.
  rewrite RelaysMore.extract_nodes_filter. intros E Hr. injection E as <- <-.
  assert (Hin : ~ In "Exit"%string (Relays.dict_get (Relays.flags r) []) ->
                In (Relays.node_info_of r)
                   (map Relays.node_info_of
                        (filter (fun r => negb (Relays.has_exit_flag r)) rs))).
  { intros N. apply in_map, filter_In. split; [exact Hr|].
    apply negb_true_iff, not_true_is_false. intros T. apply N.
    now apply RelaysFacts.exit_in_In. }
  split; [|split].
  - intros Hf. apply in_map, filter_In. split; [exact Hr|].
    now apply RelaysFacts.exit_in_In.
  - exact Hin.
  - intros Hnone. apply Hin. rewrite Hnone. cbn. tauto.
Qed.

Lemma extract_nodes_exit_flag_witness :
  (In "Exit"%string ["Guard"%string; "Exit"%string] ->
   In (Relays.mkNodeInfo "both" [])
      [Relays.mkNodeInfo "both" []])
  /\ (~ In "Exit"%string ["Guard"%string; "Exit"%string] ->
      In (Relays.mkNodeInfo "both" []) [Relays.mkNodeInfo "lower" []])
  /\ (Some ["Guard"%string; "Exit"%string] = None ->
      In (Relays.mkNodeInfo "both" []) [Relays.mkNodeInfo "lower" []]).
Proof.
  refine (extract_nodes_exit_flag
            [Relays.mkRelay (Some ["exit"%string]) (Some "lower"%string) None None;
             Relays.mkRelay (Some ["Guard"%string; "Exit"%string])
                            (Some "both"%string) None None]
            [Relays.mkNodeInfo "lower" []] [Relays.mkNodeInfo "both" []]
            (Relays.mkRelay (Some ["Guard"%string; "Exit"%string])
                            (Some "both"%string) None None) _ _).
  - vm_compute. reflexivity.
  - right. left. reflexivity.
Defined.

(** ** [find_correlations] *)

Section CorrelatorMore.

Context {F : Type} `{PyFloat F}.

Lemma correlate_same_fields W e e' x x' ms :
  node_name e = node_name e' -> timestamp e = timestamp e' ->
  bytes e = bytes e' ->
  node_name x = node_name x' -> timestamp x = timestamp x' ->
  bytes x = bytes x' ->
  correlate W e x ms = correlate W e' x' ms.
Proof.
  intros Ne Te Be Nx Tx Bx. unfold correlate.
  now rewrite Ne, Te, Be, Nx, Tx, Bx.
Qed.

Lemma for_exits_same_fields W e e' xs xs' :
  node_name e = node_name e' /\ timestamp e = timestamp e'
  /\ bytes e = bytes e' ->
  Forall2 (fun a b => node_name a = node_name b /\ timestamp a = timestamp b
                      /\ bytes a = bytes b) xs xs' ->
  forall ms, for_exits W e xs ms = for_exits W e' xs' ms.
Proof.
  intros (Ne & Te & Be).
  induction 1 as [|x x' xs xs' (Nx & Tx & Bx) _ IH]; intros ms; [reflexivity|].
  cbn [for_exits].
  rewrite (correlate_same_fields W e e' x x' ms Ne Te Be Nx Tx Bx).
  destruct (correlate W e' x' ms); cbn [bind]; [apply IH|reflexivity].
Qed.

Lemma for_entries_same_fields W es es' xs xs' :
  Forall2 (fun a b => node_name a = node_name b /\ timestamp a = timestamp b
                      /\ bytes a = bytes b) es es' ->
  Forall2 (fun a b => node_name a = node_name b /\ timestamp a = timestamp b
                      /\ bytes a = bytes b) xs xs' ->
  forall ms, for_entries W es xs ms = for_entries W es' xs' ms.
Proof.
  intros Hes Hxs.
  induction Hes as [|e e' es es' He _ IH]; intros ms; [reflexivity|].
  cbn [for_entries]. rewrite (for_exits_same_fields W e e' xs xs' He Hxs ms).
  destruct (for_exits W e' xs' ms); cbn [bind]; [apply IH|reflexivity].
Qed.

Lemma collect_length W ps ms :
  collect W ps = Ok ms -> List.length ms = List.length ps.
Proof.
  revert ms. induction ps as [|p ps IH]; intros ms; cbn [collect].
  - intros E. injection E as <-. reflexivity.
  - destruct (candidate W p); cbn [bind]; [|discriminate].
    destruct (collect W ps) as [ns|]; cbn [bind]; [|discriminate].
    intros E. injection E as <-. cbn [List.length]. now rewrite (IH ns).
Qed.

Lemma filter_length_le {A} (f : A -> bool) (l : list A) :
  (List.length (filter f l) <= List.length l)%nat.
Proof.
  induction l as [|a l IH]; [apply Nat.le_refl|].
  cbn [filter]. destruct (f a); cbn [List.length]; lia.
Qed.

Lemma filter_length_mono {A} (f g : A -> bool) (l : list A) :
  (forall a, In a l -> f a = true -> g a = true) ->
  (List.length (filter f l) <= List.length (filter g l))%nat.
Proof.
  induction l as [|a l IH]; intros Hfg; [apply Nat.le_refl|].
  assert (IH' := IH (fun b Hb => Hfg b (or_intror Hb))).
  cbn [filter]. destruct (f a) eqn:Ef.
  - rewrite (Hfg a (or_introl eq_refl) Ef). cbn [List.length]. lia.
  - destruct (g a); cbn [List.length]; lia.
Qed.

Lemma filter_none {A} (f : A -> bool) (l : list A) :
  (forall a, In a l -> f a = false) -> filter f l = [].
Proof.
  induction l as [|a l IH]; intros Hf; [reflexivity|].
  cbn [filter]. rewrite (Hf a (or_introl eq_refl)).
  apply IH. intros b Hb. apply Hf. now right.
Qed.

Lemma map_repeat_const {A B} (f : A -> B) (a : A) (n : nat) :
  map f (repeat a n) = repeat (f a) n.
Proof.
  induction n as [|n IH]; [reflexivity|]. cbn [repeat map]. now rewrite IH.
Qed.

Lemma list_prod_repeat {A B} (a : A) (b : B) (m n : nat) :
  list_prod (repeat a m) (repeat b n) = repeat (a, b) (m * n).
Proof.
  induction m as [|m IH]; [reflexivity|].
  cbn [repeat list_prod Nat.mul]. rewrite IH, repeat_app. f_equal.
  apply (map_repeat_const (fun y => (a, y))).
Qed.

Lemma filter_repeat {A} (f : A -> bool) (a : A) (n : nat) :
  f a = true -> filter f (repeat a n) = repeat a n.
Proof.
  intros E. induction n as [|n IH]; [reflexivity|].
  cbn [repeat filter]. now rewrite E, IH.
Qed.

(** X5: the correlator never reads [node_id].  Two runs whose samples agree
    in node_name, timestamp and bytes give the same result, errors
    included. *)
Theorem find_correlations_ignores_node_id
    (es es' xs xs' : list (TrafficFlow F)) (W : F) :
  Forall2 (fun a b => node_name a = node_name b /\ timestamp a = timestamp b
                      /\ bytes a = bytes b) es es' ->
  Forall2 (fun a b => node_name a = node_name b /\ timestamp a = timestamp b
                      /\ bytes a = bytes b) xs xs' ->
  find_correlations es xs W = find_correlations es' xs' W.
Proof.
  intros Hes Hxs. unfold find_correlations.
  now apply for_entries_same_fields.
Qed.

(** X6: a run that returns has one match per qualifying pair, so at most
    len(entry_flows) * len(exit_flows) matches. *)
Theorem find_correlations_count (es xs : list (TrafficFlow F)) (W : F)
    (ms : list (Match F)) :
  find_correlations es xs W = Ok ms ->
  List.length ms = List.length (qualifying_pairs W es xs)
  /\ (List.length ms <= List.length es * List.length xs)%nat.
Proof.
  rewrite find_correlations_collect. intros E.
  apply collect_length in E. split; [exact E|].
  rewrite E. unfold qualifying_pairs.
  rewrite <- length_prod. apply filter_length_le.
Qed.

Context `{!PyFloatOrder F}.

(** X7: the 'entry_node' and 'exit_node' fields of the i-th match are the
    node_name of the entry sample and of the exit sample of the i-th
    qualifying pair. *)
Theorem find_correlations_node_names (es xs : list (TrafficFlow F)) (W : F)
    (ms : list (Match F)) :
  find_correlations es xs W = Ok ms ->
  map (fun m => (entry_node m, exit_node m)) ms
  = map (fun p => (node_name (fst p), node_name (snd p)))
        (qualifying_pairs W es xs).
Proof.
  intros E. rewrite (find_correlations_Ok_links es xs W ms E), map_map.
  reflexivity.
Qed.

(** X8: matching is many-to-many, with no deduplication.  If a pair (e, x)
    with a non-zero maximum byte count qualifies, then m copies of e against
    n copies of x give m * n copies of its link. *)
Theorem find_correlations_repeat (W : F) (e x : TrafficFlow F) (m n : nat) :
  qualifies W e x = true -> max_bytes e x <> 0%Z ->
  find_correlations (repeat e m) (repeat x n) W
  = Ok (repeat (link W e x) (m * n)).
Proof.
  intros Q Hm. rewrite find_correlations_links.
  - unfold qualifying_pairs.
    rewrite list_prod_repeat, filter_repeat, map_repeat_const;
      [reflexivity|exact Q].
  - intros e' x' He Hx _.
    apply repeat_spec in He, Hx. now subst e' x'.
Qed.

(** X9: every match of a run that returns stems from an entry sample e and
    an exit sample x of the input with |e.bytes - x.bytes| < 100; its
    'delay' field is x.timestamp - e.timestamp and lies strictly between 0
    and the time window. *)
Theorem find_correlations_sound (es xs : list (TrafficFlow F)) (W : F)
    (ms : list (Match F)) :
  find_correlations es xs W = Ok ms ->
  Forall (fun m =>
            fltb fzero (delay m) = true /\ fltb (delay m) W = true
            /\ exists e x,
                 In e es /\ In x xs
                 /\ (Z.abs (bytes e - bytes x) < 100)%Z
                 /\ delay m = fsub (timestamp x) (timestamp e)) ms.
Proof.
  intros E. rewrite (find_correlations_Ok_links es xs W ms E).
  apply Forall_map, Forall_forall. intros [e x] Hin.
  apply qualifying_pairs_In in Hin as (He & Hx & Q).
  apply qualifies_iff in Q as (B & D1 & D2).
  cbn [fst snd delay link].
  split; [exact D1|]. split; [exact D2|].
  exists e, x. repeat split; trivial.
Qed.

Context `{!PyFloatRounding F}.

(** X10: with a time window that is not positive no pair qualifies: the run
    returns the empty list for all samples, zero-byte pairs included, and
    never divides. *)
Theorem find_correlations_window_nonpositive
    (es xs : list (TrafficFlow F)) (W : F) :
  fleb W fzero = true -> find_correlations es xs W = Ok [].
Proof.
  intros HW. rewrite find_correlations_collect. unfold qualifying_pairs.
  rewrite filter_none; [reflexivity|].
  intros [e x] _. cbn [fst snd]. apply not_true_is_false. intros Q.
  apply qualifies_iff in Q as (_ & D1 & D2).
  apply flt_fle in D2.
  pose proof (fle_trans _ _ _ D2 HW) as L.
  apply fle_not_flt in L. congruence.
Qed.

End CorrelatorMore.

(** ** [find_correlations] on binary64 floats *)

Module Binary64More.

Import Stdlib.Floats.Floats.

Lemma SFcompare_total (x z : spec_float) :
  x <> S754_nan -> z <> S754_nan -> exists c, SFcompare x z = Some c.
Proof.
  destruct x as [sx|sx| |sx mx ex], z as [sz|sz| |sz mz ez];
    intros Nx Nz; try congruence; cbn [SFcompare]; eauto.
Qed.

Lemma SFltb_not_nan_l (x y : spec_float) : SFltb x y = true -> x <> S754_nan.
Proof. intros L E. subst x. discriminate L. Qed.

Lemma SFltb_SFleb_trans (x y z : spec_float) :
  SFltb x y = true -> SFleb y z = true -> SFltb x z = true.
Proof.
  intros Lxy Lyz.
  destruct (SFcompare_total x z) as [c Ec];
    [exact (SFltb_not_nan_l _ _ Lxy)
    |exact (Binary64Facts.SFleb_not_nan_r _ _ Lyz)|].
  destruct c.
  - assert (Lzx : SFleb z x = true).
    { unfold SFleb. rewrite (Binary64Order.SFcompare_antisym x z), Ec.
      reflexivity. }
    pose proof (Binary64Facts.SFleb_trans _ _ _ Lyz Lzx) as Lyx.
    apply Binary64Order.SFleb_not_SFltb in Lyx. congruence.
  - unfold SFltb. now rewrite Ec.
  - assert (Lzx : SFleb z x = true).
    { unfold SFleb. rewrite (Binary64Order.SFcompare_antisym x z), Ec.
      reflexivity. }
    pose proof (Binary64Facts.SFleb_trans _ _ _ Lyz Lzx) as Lyx.
    apply Binary64Order.SFleb_not_SFltb in Lyx. congruence.
Qed.

Lemma ltb_leb_trans (a b c : float) :
  PrimFloat.ltb a b = true -> PrimFloat.leb b c = true ->
  PrimFloat.ltb a c = true.
Proof.
  rewrite !FloatAxioms.ltb_spec, FloatAxioms.leb_spec.
  apply SFltb_SFleb_trans.
Qed.

Lemma qualifies_window_monotone (W W' : float) (e x : TrafficFlow float) :
  PrimFloat.leb W W' = true ->
  qualifies W e x = true -> qualifies W' e x = true.
Proof.
  intros L Q. apply qualifies_iff in Q as (B & D1 & D2).
  apply qualifies_iff. repeat split; trivial.
  exact (ltb_leb_trans _ _ _ D2 L).
Qed.

(** NaN *)

Lemma is_nan_Prim2SF (f : float) :
  PrimFloat.is_nan f = true -> Prim2SF f = S754_nan.
Proof.
  unfold PrimFloat.is_nan. rewrite negb_true_iff, FloatAxioms.eqb_spec.
  intros E. destruct (Prim2SF f) as [s|s| |s m e] eqn:Ef; [| |reflexivity|];
    exfalso; unfold SFeqb in E;
    rewrite Binary64Facts.SFcompare_refl in E; discriminate.
Qed.

Lemma sub_nan_l (a b : float) :
  PrimFloat.is_nan a = true -> Prim2SF (a - b) = S754_nan.
Proof.
  intros N. rewrite FloatAxioms.sub_spec, (is_nan_Prim2SF a N). reflexivity.
Qed.

Lemma sub_nan_r (a b : float) :
  PrimFloat.is_nan b = true -> Prim2SF (a - b) = S754_nan.
Proof.
  intros N. rewrite FloatAxioms.sub_spec, (is_nan_Prim2SF b N).
  destruct (Prim2SF a); reflexivity.
Qed.

Lemma qualifies_not_nan (W : float) (e x : TrafficFlow float) :
  qualifies W e x = true ->
  PrimFloat.is_nan (timestamp e) = false
  /\ PrimFloat.is_nan (timestamp x) = false
  /\ PrimFloat.is_nan W = false.
Proof.
  intros Q. apply qualifies_iff in Q as (_ & D1 & D2).
  unfold delay_of in D1, D2. cbn [fsub fltb binary64] in D1, D2.
  rewrite FloatAxioms.ltb_spec in D1, D2.
  split; [|split]; apply not_true_is_false; intros N.
  - rewrite (sub_nan_r _ _ N) in D1.
    destruct (Prim2SF fzero); discriminate D1.
  - rewrite (sub_nan_l _ _ N) in D1.
    destruct (Prim2SF fzero); discriminate D1.
  - rewrite (is_nan_Prim2SF W N) in D2.
    destruct (Prim2SF (timestamp x - timestamp e)); discriminate D2.
Qed.

Lemma filter_map_pair_filter {A B} (q : A * B -> bool) (g : B -> bool)
    (a : A) (l : list B) :
  (forall b, q (a, b) = true -> g b = true) ->
  filter q (map (fun y => (a, y)) (filter g l))
  = filter q (map (fun y => (a, y)) l).
Proof.
  intros Hq. induction l as [|b l IH]; [reflexivity|].
  cbn [filter map]. destruct (g b) eqn:Eg.
  - cbn [map filter]. now rewrite IH.
  - rewrite IH. destruct (q (a, b)) eqn:Eq; [|reflexivity].
    rewrite (Hq b Eq) in Eg. discriminate.
Qed.

Lemma filter_prod_filter {A B} (q : A * B -> bool) (f : A -> bool)
    (g : B -> bool) (l : list A) (l' : list B) :
  (forall a b, q (a, b) = true -> f a = true /\ g b = true) ->
  filter q (list_prod (filter f l) (filter g l')) = filter q (list_prod l l').
Proof.
  intros Hq. induction l as [|a l IH]; [reflexivity|].
  cbn [filter list_prod]. rewrite filter_app, <- IH.
  destruct (f a) eqn:Ef.
  - cbn [list_prod]. rewrite filter_app. f_equal.
    apply filter_map_pair_filter. intros b Q. now apply (Hq a b).
  - replace (filter q (map (fun y => (a, y)) l')) with (@nil (A * B));
      [reflexivity|].
    symmetry. apply filter_none. intros p Hin.
    apply in_map_iff in Hin as (b & <- & _).
    apply not_true_is_false. intros Eq.
    destruct (Hq a b Eq) as [T _]. congruence.
Qed.

Lemma int_div_zero (m : Z) : (0 < m)%Z -> Binary64.int_div 0 m = 0%float.
Proof.
  destruct m as [|p|p]; try lia. intros _. reflexivity.
Qed.

End Binary64More.

(** X11: in binary64, enlarging the time window keeps every qualifying pair.
    If the run with the larger window returns, the run with the smaller
    window returns too, and with no more matches. *)
Theorem find_correlations_window_monotone
    (es xs : list (TrafficFlow float)) (W W' : float)
    (ms' : list (Match float)) :
  PrimFloat.leb W W' = true ->
  find_correlations es xs W' = Ok ms' ->
  incl (qualifying_pairs W es xs) (qualifying_pairs W' es xs)
  /\ exists ms,
       find_correlations es xs W = Ok ms
       /\ (List.length ms <= List.length ms')%nat.
Proof.
  intros L E'. split.
  - intros [e x] Hin. apply qualifying_pairs_In in Hin as (He & Hx & Q).
    apply qualifying_pairs_In. repeat split; trivial.
    exact (Binary64More.qualifies_window_monotone W W' e x L Q).
  - pose proof (find_correlations_Ok_nonzero _ _ _ _ E') as Hnz.
    apply find_correlations_Ok_links in E'. subst ms'.
    eexists. split.
    + apply find_correlations_links. intros e x He Hx Q.
      apply (Hnz e x He Hx).
      exact (Binary64More.qualifies_window_monotone W W' e x L Q).
    + rewrite !length_map. unfold qualifying_pairs.
      apply filter_length_mono. intros [e x] _. cbn [fst snd].
      apply Binary64More.qualifies_window_monotone, L.
Qed.

(** X12: in binary64, a match between two samples of the same positive
    byte count has the full byte score 50: its confidence is
    50 + (1 - delay / W) * 50, and at least 50. *)
Theorem equal_bytes_confidence (W : float) (e x : TrafficFlow float)
    (l : Match float) :
  bytes e = bytes x -> (0 < bytes e)%Z ->
  find_correlations [e] [x] W = Ok [l] ->
  confidence l = (50 + (1 - delay l / W) * 50)%float
  /\ PrimFloat.leb 50 (confidence l) = true.
Proof.
  intros Eb Hpos E.
  apply find_correlations_pair_inv in E as (Q & _ & ->).
  apply qualifies_iff in Q as (_ & D1 & D2).
  assert (Es : score W e x
               = (50 + (1 - delay_of e x / W) * 50)%float).
  { unfold score, byte_score_of, timing_score_of, byte_diff, max_bytes.
    rewrite <- Eb, Z.sub_diag, Z.max_id. cbn [Z.abs].
    cbn [int_div fadd fsub fmul fdiv of_int binary64].
    rewrite (Binary64More.int_div_zero _ Hpos). reflexivity. }
  cbn [confidence delay link]. split; [exact Es|].
  rewrite Es.
  destruct (timing_score_bounds (delay_of e x) W D1 D2) as [T0 T50].
  apply flt_fle in T0.
  change (fleb (F := float) ffifty
            (fadd ffifty (fmul (fsub fone (fdiv (delay_of e x) W)) ffifty))
          = true).
  apply fle_trans with (fadd (F := float) ffifty fzero); [reflexivity|].
  apply fadd_monotone_r; trivial; reflexivity.
Qed.

(** X13: in binary64, samples whose timestamp is NaN take part in no match:
    a run gives the same result, errors included, as the run without them.
    With a NaN time window the run returns the empty list. *)
Theorem find_correlations_nan (es xs : list (TrafficFlow float)) (W : float) :
  find_correlations es xs W
  = find_correlations
      (filter (fun s => negb (PrimFloat.is_nan (timestamp s))) es)
      (filter (fun s => negb (PrimFloat.is_nan (timestamp s))) xs) W
  /\ (PrimFloat.is_nan W = true -> find_correlations es xs W = Ok []).
Proof.
  split.
  - rewrite !find_correlations_collect. f_equal. unfold qualifying_pairs.
    symmetry. apply Binary64More.filter_prod_filter.
    intros e x Q. cbn [fst snd] in Q.
    destruct (Binary64More.qualifies_not_nan W e x Q) as (Ne & Nx & _).
    now rewrite Ne, Nx.
  - intros N. rewrite find_correlations_collect. unfold qualifying_pairs.
    rewrite filter_none; [reflexivity|].
    intros [e x] _. cbn [fst snd]. apply not_true_is_false. intros Q.
    destruct (Binary64More.qualifies_not_nan W e x Q) as (_ & _ & NW).
    congruence.
Qed.

(** ** Instances on the sample traffic *)

Lemma find_correlations_ignores_node_id_witness :
  find_correlations [SampleRun.first_entry] [SampleRun.first_exit] 5%float
  = find_correlations
      [mkTrafficFlow "guard-7f" "relay_guard_1" 100.0%float 1000]
      [mkTrafficFlow "exit-03" "relay_exit_7" 103.2%float 1000] 5%float.
Proof.
  apply find_correlations_ignores_node_id; repeat constructor.
Defined.

Lemma find_correlations_count_witness :
  List.length SampleRun.sample_matches
  = List.length (qualifying_pairs Sample.default_time_window
                                  Sample.entry_traffic Sample.exit_traffic)
  /\ (List.length SampleRun.sample_matches
      <= List.length Sample.entry_traffic * List.length Sample.exit_traffic)%nat.
Proof.
  exact (find_correlations_count Sample.entry_traffic Sample.exit_traffic
           Sample.default_time_window SampleRun.sample_matches sample_run).
Defined.

Lemma find_correlations_node_names_witness :
  map (fun m => (entry_node m, exit_node m)) SampleRun.sample_matches
  = map (fun p => (node_name (fst p), node_name (snd p)))
        (qualifying_pairs Sample.default_time_window
                          Sample.entry_traffic Sample.exit_traffic).
Proof.
  exact (find_correlations_node_names Sample.entry_traffic Sample.exit_traffic
           Sample.default_time_window SampleRun.sample_matches sample_run).
Defined.

Lemma find_correlations_repeat_witness :
  find_correlations (repeat SampleRun.first_entry 2)
                    (repeat SampleRun.first_exit 3)
                    Sample.default_time_window
  = Ok (repeat (link Sample.default_time_window
                     SampleRun.first_entry SampleRun.first_exit) (2 * 3)).
Proof.
  apply find_correlations_repeat.
  - vm_compute. reflexivity.
  - vm_compute. discriminate.
Defined.

Lemma find_correlations_sound_witness :
  Forall (fun m =>
            PrimFloat.ltb 0 (delay m) = true
            /\ PrimFloat.ltb (delay m) 5 = true
            /\ exists e x,
                 In e Sample.entry_traffic /\ In x Sample.exit_traffic
                 /\ (Z.abs (bytes e - bytes x) < 100)%Z
                 /\ delay m = (timestamp x - timestamp e)%float)
         SampleRun.sample_matches.
Proof.
  exact (find_correlations_sound Sample.entry_traffic Sample.exit_traffic
           Sample.default_time_window SampleRun.sample_matches sample_run).
Defined.

(** With the window 0 the pair of zero-byte samples, which raises with the
    window 5, gives the empty list. *)
Lemma find_correlations_window_nonpositive_witness :
  find_correlations [SampleZero.idle_entry] [SampleZero.idle_exit] 0%float
  = Ok [].
Proof.
  apply find_correlations_window_nonpositive. vm_compute. reflexivity.
Defined.

Lemma find_correlations_window_monotone_witness :
  incl (qualifying_pairs 4%float Sample.entry_traffic Sample.exit_traffic)
       (qualifying_pairs 5%float Sample.entry_traffic Sample.exit_traffic)
  /\ exists ms,
       find_correlations Sample.entry_traffic Sample.exit_traffic 4%float
       = Ok ms
       /\ (List.length ms <= List.length SampleRun.sample_matches)%nat.
Proof.
  apply (find_correlations_window_monotone
           Sample.entry_traffic Sample.exit_traffic 4%float 5%float
           SampleRun.sample_matches).
  - vm_compute. reflexivity.
  - exact sample_run.
Defined.

Lemma equal_bytes_confidence_witness :
  67.999999999999972%float = (50 + (1 - 3.2000000000000028 / 5) * 50)%float
  /\ PrimFloat.leb 50 67.999999999999972 = true.
Proof.
  apply (equal_bytes_confidence 5%float
           SampleRun.first_entry SampleRun.first_exit
           (mkMatch "relay_guard_1" "relay_exit_7"
                    67.999999999999972%float 3.2000000000000028%float 1000)).
  - reflexivity.
  - reflexivity.
  - vm_compute. reflexivity.
Defined.
